(** * Dataverse backend: schema inference and natural-language-to-query core

    A shallow embedding of the query generator
    (src/services/query-generator.service.ts), the schema service
    (extractFieldsFromDocument, detectRelationships and their helpers) and the
    connection pool manager, followed by the properties of the design
    document that concern them.

    Conventions.
    - A JavaScript string is a [string] whose characters are the code units
      0..255 (Latin-1 text).
    - A JavaScript number that counts something (a limit, a reference count,
      a 32-bit hash) is a [Z]; the confidence score and the numbers read
      off a message are IEEE-754 doubles ([float]).
    - An object used as a record of named values is an association list in
      property enumeration order. *)

From Stdlib Require Import ZArith Ascii String List Bool Lia Permutation.
From Stdlib Require Import DecimalString Floats.
From stdpp Require Import base option list strings gmap.

Local Open Scope string_scope.
Local Open Scope Z_scope.

(** The decimal constants of the source (0.3, 0.15, 0.2) denote the nearest
    doubles, as they do in JavaScript. *)
Set Warnings "-inexact-float".

(* ===================================================================== *)
(** * JavaScript values and string operations *)
(* ===================================================================== *)

Module JS.

(** ** Characters *)

Definition code (c : ascii) : nat := nat_of_ascii c.

Definition inRange (lo hi : nat) (c : ascii) : bool :=
  (Nat.leb lo (code c)) && (Nat.leb (code c) hi).

Definition isDigit (c : ascii) : bool := inRange 48 57 c.
Definition isUpper (c : ascii) : bool := inRange 65 90 c.
Definition isLower (c : ascii) : bool := inRange 97 122 c.

(** [\w] : letters, digits and the underscore. *)
Definition isWord (c : ascii) : bool :=
  isUpper c || isLower c || isDigit c || Nat.eqb (code c) 95.

(** [\s] restricted to the code units below 256: tab, line feed, vertical
    tab, form feed, carriage return, space and no-break space. *)
Definition isSpace (c : ascii) : bool :=
  inRange 9 13 c || Nat.eqb (code c) 32 || Nat.eqb (code c) 160.

(** [.] of a regular expression without the [s] flag: anything but a line
    terminator. *)
Definition isDot (c : ascii) : bool :=
  negb (Nat.eqb (code c) 10 || Nat.eqb (code c) 13).

(** [String.prototype.toLowerCase], one code unit at a time: A-Z and the
    Latin-1 capitals (0xC0-0xDE except the multiplication sign). *)
Definition lowerChar (c : ascii) : ascii :=
  if isUpper c || (inRange 192 222 c && negb (Nat.eqb (code c) 215))
  then ascii_of_nat (code c + 32) else c.

Fixpoint toLowerCase (s : string) : string :=
  match s with
  | EmptyString => EmptyString
  | String c r => String (lowerChar c) (toLowerCase r)
  end.

(** Comparison of a source character with an ASCII letter of a pattern
    under the [i] flag. *)
Definition ciEq (c p : ascii) : bool :=
  Ascii.eqb (if isUpper c then lowerChar c else c)
            (if isUpper p then lowerChar p else p).

(** ** Strings *)

Fixpoint startsWith (s p : string) {struct p} : bool :=
  match p, s with
  | EmptyString, _ => true
  | String a p', String b s' => Ascii.eqb a b && startsWith s' p'
  | String _ _, EmptyString => false
  end.

(** [s.includes(t)] *)
Fixpoint includes (s t : string) : bool :=
  startsWith s t ||
  match s with
  | EmptyString => false
  | String _ r => includes r t
  end.

Fixpoint strAll (p : ascii -> bool) (s : string) : bool :=
  match s with
  | EmptyString => true
  | String c r => p c && strAll p r
  end.

Fixpoint rev_str (s : string) : string :=
  match s with
  | EmptyString => EmptyString
  | String c r => rev_str r +:+ String c EmptyString
  end.

(** [s.endsWith(p)] and the removal of a suffix that is known to be there
    ([s.slice(0, -p.length)]). *)
Definition endsWith (s p : string) : bool := startsWith (rev_str s) (rev_str p).

Definition dropEnd (n : nat) (s : string) : string :=
  String.substring 0 (String.length s - n) s.

(** [s.replace(/p$/, '')] for a literal [p]: the suffix, when present, goes. *)
Definition stripSuffix (p s : string) : option string :=
  if endsWith s p then Some (dropEnd (String.length p) s) else None.

Fixpoint join (sep : string) (l : list string) : string :=
  match l with
  | [] => EmptyString
  | [x] => x
  | x :: r => x +:+ sep +:+ join sep r
  end.

(** Decimal text of an integer-valued number. *)
Definition numberToString (z : Z) : string :=
  NilZero.string_of_int (Z.to_int z).

(** ** Numbers *)

(** The double nearest to [num / den], ties to even, for [0 <= num] and
    [0 < den]. *)
Definition nearestDouble (negative : bool) (num den : Z) : float :=
  match num with
  | Zpos _ =>
      let '(q, e, l) := SFdiv_core_binary prec emax num 0 den 0 in
      SF2Prim (binary_round_aux prec emax negative q e l)
  | _ => if negative then neg_zero else zero
  end.

(** [c * 10 ^ p] as a fraction. *)
Definition scaled (num den p : Z) : Z * Z :=
  if 0 <=? p then (num * 10 ^ p, den) else (num, den * 10 ^ (- p)).

(** The value of a digit in a radix up to 16. *)
Definition digitValue (c : ascii) : Z :=
  let n := Z.of_nat (code c) in
  if inRange 48 57 c then n - 48
  else if inRange 97 102 c then n - 87
  else n - 55.

Fixpoint radixValue (radix acc : Z) (s : string) : Z :=
  match s with
  | EmptyString => acc
  | String c r => radixValue radix (acc * radix + digitValue c) r
  end.

Definition isHexDigit (c : ascii) : bool :=
  isDigit c || inRange 97 102 c || inRange 65 70 c.
Definition isOctalDigit (c : ascii) : bool := inRange 48 55 c.
Definition isBinaryDigit (c : ascii) : bool := inRange 48 49 c.

Definition digitsOnly (isD : ascii -> bool) (s : string) : bool :=
  strAll isD s && negb (String.eqb s EmptyString).

Fixpoint spanDigits (s : string) : string * string :=
  match s with
  | String c r =>
      if isDigit c then let (d, rest) := spanDigits r in (String c d, rest)
      else (EmptyString, s)
  | EmptyString => (EmptyString, EmptyString)
  end.

Fixpoint trimStart (s : string) : string :=
  match s with
  | String c r => if isSpace c then trimStart r else s
  | EmptyString => EmptyString
  end.

Definition trim (s : string) : string := rev_str (trimStart (rev_str (trimStart s))).

(** NonDecimalIntegerLiteral: [0x], [0o] or [0b] (in either case) and
    digits of that radix, without a sign. *)
Definition nonDecimalLiteral (s : string) : option Z :=
  match s with
  | String "0" (String p digits) =>
      if (Ascii.eqb p "x" || Ascii.eqb p "X") && digitsOnly isHexDigit digits
      then Some (radixValue 16 0 digits)
      else if (Ascii.eqb p "o" || Ascii.eqb p "O") && digitsOnly isOctalDigit digits
      then Some (radixValue 8 0 digits)
      else if (Ascii.eqb p "b" || Ascii.eqb p "B") && digitsOnly isBinaryDigit digits
      then Some (radixValue 2 0 digits)
      else None
  | _ => None
  end.

(** ExponentPart, or nothing: what may follow the digits of a decimal
    literal. *)
Definition exponentPart (s : string) : option Z :=
  match s with
  | EmptyString => Some 0
  | String c r =>
      if Ascii.eqb c "e" || Ascii.eqb c "E" then
        match r with
        | String "-" digits =>
            if digitsOnly isDigit digits then Some (- radixValue 10 0 digits) else None
        | String "+" digits =>
            if digitsOnly isDigit digits then Some (radixValue 10 0 digits) else None
        | _ => if digitsOnly isDigit r then Some (radixValue 10 0 r) else None
        end
      else None
  end.

(** StrUnsignedDecimalLiteral other than [Infinity]: the digits before and
    after the point as one integer, the number of those digits, and the
    power of ten that goes with the integer. *)
Definition decimalLiteral (s : string) : option (Z * Z * Z) :=
  let (whole, afterWhole) := spanDigits s in
  let (fraction, afterFraction) :=
    match afterWhole with
    | String "." r => spanDigits r
    | _ => (EmptyString, afterWhole)
    end in
  if String.eqb (whole +:+ fraction) EmptyString then None
  else
    match exponentPart afterFraction with
    | Some e =>
        Some (radixValue 10 0 (whole +:+ fraction),
              Z.of_nat (String.length (whole +:+ fraction)),
              e - Z.of_nat (String.length fraction))
    | None => None
    end.

(** The double of [m * 10 ^ e] for a literal of [len] digits: beyond the
    range of the doubles the result is known without the division. *)
Definition decimalValue (negative : bool) (m len e : Z) : float :=
  if m =? 0 then (if negative then neg_zero else zero)
  else if 309 <=? e then (if negative then neg_infinity else infinity)
  else if e + len <=? -324 then (if negative then neg_zero else zero)
  else let (num, den) := scaled m 1 e in nearestDouble negative num den.

Definition unsignedDecimal (negative : bool) (s : string) : float :=
  if String.eqb s "Infinity" then (if negative then neg_infinity else infinity)
  else match decimalLiteral s with
       | Some (m, len, e) => decimalValue negative m len e
       | None => nan
       end.

(** [Number(v)] for a string (StringToNumber). *)
Definition Number (v : string) : float :=
  let s := trim v in
  if String.eqb s EmptyString then zero
  else
    match nonDecimalLiteral s with
    | Some n => nearestDouble false n 1
    | None =>
        match s with
        | String "-" r => unsignedDecimal true r
        | String "+" r => unsignedDecimal false r
        | _ => unsignedDecimal false s
        end
    end.

(** ** [Number::toString] *)

(** The least [j >= 1] with [den <= num * 10 ^ j]. *)
Fixpoint scaleUp (fuel : nat) (num den j : Z) : Z :=
  match fuel with
  | O => j
  | S fuel' => if den <=? num * 10 ^ j then j else scaleUp fuel' num den (j + 1)
  end.

(** The [n] with [10 ^ (n - 1) <= num / den < 10 ^ n]. *)
Definition magnitude (num den : Z) : Z :=
  if den <=? num then Z.of_nat (String.length (numberToString (num / den)))
  else 1 - scaleUp 400 num den 1.

(** [s * 10 ^ p] rounds to [x]. *)
Definition represents (x : float) (s p : Z) : bool :=
  let (num, den) := scaled s 1 p in PrimFloat.eqb (nearestDouble false num den) x.

(** The [k]-digit integer [s] with [s * 10 ^ (n - k)] rounding to [x],
    the one nearest to [x] if there are two. *)
Definition candidate (x : float) (num den n k : Z) : option Z :=
  let (N, D) := scaled num den (k - n) in
  let lo := N / D in
  let r := N mod D in
  match represents x lo (n - k), represents x (lo + 1) (n - k) with
  | true, true =>
      Some (if 2 * r <? D then lo
            else if D <? 2 * r then lo + 1
            else if Z.even lo then lo else lo + 1)
  | true, false => Some lo
  | false, true => Some (lo + 1)
  | false, false => None
  end.

Fixpoint shortest (fuel : nat) (x : float) (num den n k : Z) : Z * Z :=
  match fuel with
  | O => (fst (scaled num den (k - n)) / snd (scaled num den (k - n)), k)
  | S fuel' =>
      match candidate x num den n k with
      | Some s => (s, k)
      | None => shortest fuel' x num den n (k + 1)
      end
  end.

Fixpoint stripZeros (reversed : string) : string :=
  match reversed with
  | String "0" r => stripZeros r
  | _ => reversed
  end.

Fixpoint zeros (n : nat) : string :=
  match n with
  | O => EmptyString
  | S n' => String "0" (zeros n')
  end.

(** The text of a number from its digits [digits] and the [n] with
    [0.digits * 10 ^ n] its value. *)
Definition layout (digits : string) (n : Z) : string :=
  let k := Z.of_nat (String.length digits) in
  if (k <=? n) && (n <=? 21) then digits +:+ zeros (Z.to_nat (n - k))
  else if (0 <? n) && (n <=? 21) then
    String.substring 0 (Z.to_nat n) digits +:+ "." +:+
    String.substring (Z.to_nat n) (Z.to_nat (k - n)) digits
  else if (-6 <? n) && (n <=? 0) then "0." +:+ zeros (Z.to_nat (- n)) +:+ digits
  else
    let e := n - 1 in
    let exponent := (if 0 <=? e then "+" else "-") +:+ numberToString (Z.abs e) in
    match digits with
    | String d EmptyString => digits +:+ "e" +:+ exponent
    | String d rest => String d ("." +:+ rest) +:+ "e" +:+ exponent
    | EmptyString => EmptyString
    end.

Definition positiveToString (x : float) : string :=
  match Prim2SF x with
  | S754_finite _ m e =>
      let (num, den) :=
        if 0 <=? e then (Zpos m * 2 ^ e, 1) else (Zpos m, 2 ^ (- e)) in
      let n := magnitude num den in
      let (s, k) := shortest 17 x num den n 1 in
      let all := numberToString s in
      layout (rev_str (stripZeros (rev_str all)))
             (n + (Z.of_nat (String.length all) - k))
  | _ => EmptyString
  end.

(** [String(x)] for a number. *)
Definition doubleToString (x : float) : string :=
  if PrimFloat.is_nan x then "NaN"
  else if PrimFloat.is_zero x then "0"
  else if PrimFloat.is_infinity x then
    (if PrimFloat.get_sign x then "-Infinity" else "Infinity")
  else if PrimFloat.get_sign x then "-" +:+ positiveToString (PrimFloat.abs x)
  else positiveToString x.

(** ** Values that [JSON.stringify] prints *)

(** A number is [JNum z] when its value is the integer [z], of at most 2^53
    in absolute value, and [JDbl x] otherwise. *)
#[local] Unset Elimination Schemes.
Inductive json : Type :=
| JNull
| JBool (b : bool)
| JNum (z : Z)
| JDbl (x : float)
| JStr (s : string)
| JArr (l : list json)
| JObj (kvs : list (string * json)).
#[local] Set Elimination Schemes.

(** Truthiness, as [if (v)] and [!v] see it. *)
Definition truthy (j : json) : bool :=
  match j with
  | JNull => false
  | JBool b => b
  | JNum z => negb (z =? 0)
  | JDbl x => negb (PrimFloat.is_zero x || PrimFloat.is_nan x)
  | JStr s => negb (String.eqb s EmptyString)
  | JArr _ | JObj _ => true
  end.

(** A number as a value: zero of either sign is [0]. *)
Definition number (x : float) : json :=
  match Prim2SF x with
  | S754_zero _ => JNum 0
  | S754_finite negative m e =>
      let sign := if negative then -1 else 1 in
      if 0 <=? e then
        if Zpos m * 2 ^ e <=? 2 ^ 53 then JNum (sign * (Zpos m * 2 ^ e)) else JDbl x
      else if Zpos m mod 2 ^ (- e) =? 0 then JNum (sign * (Zpos m / 2 ^ (- e)))
      else JDbl x
  | _ => JDbl x
  end.

Definition dquote : ascii := "034"%char.
Definition backslash : ascii := "092"%char.

Definition hexDigit (n : nat) : ascii :=
  if Nat.ltb n 10 then ascii_of_nat (48 + n) else ascii_of_nat (87 + n).

(** One character inside a JSON string literal (QuoteJSONString). *)
Definition escapeChar (c : ascii) : string :=
  let n := code c in
  if Nat.eqb n 8 then String backslash "b"
  else if Nat.eqb n 9 then String backslash "t"
  else if Nat.eqb n 10 then String backslash "n"
  else if Nat.eqb n 12 then String backslash "f"
  else if Nat.eqb n 13 then String backslash "r"
  else if Nat.eqb n 34 then String backslash (String dquote EmptyString)
  else if Nat.eqb n 92 then String backslash (String backslash EmptyString)
  else if Nat.ltb n 32 then
    String backslash ("u00" +:+ String (hexDigit (Nat.div n 16))
                                 (String (hexDigit (Nat.modulo n 16)) EmptyString))
  else String c EmptyString.

Fixpoint escape (s : string) : string :=
  match s with
  | EmptyString => EmptyString
  | String c r => escapeChar c +:+ escape r
  end.

Definition quote (s : string) : string :=
  String dquote (escape s +:+ String dquote EmptyString).

(** [JSON.stringify(v)] without indentation. *)
Fixpoint stringify (j : json) : string :=
  match j with
  | JNull => "null"
  | JBool true => "true"
  | JBool false => "false"
  | JNum z => numberToString z
  | JDbl x =>
      if PrimFloat.is_nan x || PrimFloat.is_infinity x then "null" else doubleToString x
  | JStr s => quote s
  | JArr l => "[" +:+ join "," (List.map stringify l) +:+ "]"
  | JObj kvs =>
      "{" +:+ join "," (List.map (fun kv => quote (fst kv) +:+ ":" +:+ stringify (snd kv)) kvs)
          +:+ "}"
  end.

(** ** Objects as records of named values *)

Definition obj := list (string * json).

Fixpoint getOwn (o : obj) (k : string) : option json :=
  match o with
  | [] => None
  | (k', v) :: r => if String.eqb k' k then Some v else getOwn r k
  end.

(** The names every object inherits from [Object.prototype]; reading one of
    them on an object that has no own property of that name yields a
    function (or the prototype itself), which is truthy. *)
Definition objectPrototypeKeys : list string :=
  [ "constructor"; "__defineGetter__"; "__defineSetter__"; "hasOwnProperty";
    "__lookupGetter__"; "__lookupSetter__"; "isPrototypeOf";
    "propertyIsEnumerable"; "toString"; "valueOf"; "__proto__";
    "toLocaleString" ].

Definition isInherited (k : string) : bool :=
  existsb (String.eqb k) objectPrototypeKeys.

(** [!o[k]] *)
Definition propFalsy (o : obj) (k : string) : bool :=
  match getOwn o k with
  | Some v => negb (truthy v)
  | None => negb (isInherited k)
  end.

Fixpoint digitsValue (acc : N) (s : string) : N :=
  match s with
  | EmptyString => acc
  | String c r => digitsValue (acc * 10 + N.of_nat (code c - 48))%N r
  end.

(** An array index is the canonical decimal text of an integer below
    2^32 - 1; such keys are enumerated first, in ascending order. *)
Definition arrayIndex (k : string) : option N :=
  match k with
  | EmptyString => None
  | String c r =>
      if strAll isDigit k && (negb (Nat.eqb (code c) 48) || String.eqb r EmptyString)
         && Nat.leb (String.length k) 10 && (digitsValue 0 k <? 4294967295)%N
      then Some (digitsValue 0 k) else None
  end.

Fixpoint insertIndexed (i : N) (k : string) (v : json) (o : obj) : obj :=
  match o with
  | [] => [(k, v)]
  | (k', v') :: r =>
      match arrayIndex k' with
      | Some i' => if (i' <? i)%N then (k', v') :: insertIndexed i k v r
                   else (k, v) :: o
      | None => (k, v) :: o
      end
  end.

Fixpoint replaceOwn (o : obj) (k : string) (v : json) : obj :=
  match o with
  | [] => []
  | (k', v') :: r =>
      if String.eqb k' k then (k', v) :: r else (k', v') :: replaceOwn r k v
  end.

(** [o[k] = v] for a primitive [v].  Assigning to [__proto__] runs the
    inherited setter, which ignores a primitive and leaves the object as it
    was. *)
Definition setProp (o : obj) (k : string) (v : json) : obj :=
  if String.eqb k "__proto__" then o
  else match getOwn o k with
       | Some _ => replaceOwn o k v
       | None => match arrayIndex k with
                 | Some i => insertIndexed i k v o
                 | None => (o ++ [(k, v)])%list
                 end
       end.

Definition keys (o : obj) : list string := List.map fst o.

End JS.

(* ===================================================================== *)
(** * The regular expressions of the source, as a backtracking matcher *)
(* ===================================================================== *)

Module Regex.
Import JS.

(** The constructs the source's patterns are written with.  Quantifiers are
    only ever applied to a character class (or, for [?], to a short group),
    which is what [Star], [Plus], [PlusLazy] and [Opt] offer. *)
Inductive re : Type :=
| Cls (p : ascii -> bool)      (* a character of a class: \w  \s  [^\s,]  . *)
| Lit (s : string)             (* literal text *)
| LitI (s : string)            (* literal text under the i flag *)
| Seq (a b : re)
| Alt (a b : re)               (* a|b, left alternative first *)
| Opt (a : re)                 (* a?  greedy *)
| Star (p : ascii -> bool)     (* [class]*  greedy *)
| Plus (p : ascii -> bool)     (* [class]+  greedy *)
| PlusLazy (p : ascii -> bool) (* [class]+? *)
| Cap (a : re)                 (* a capturing group *)
| Bos                          (* ^ *)
| Eos.                         (* $ *)

Declare Scope re_scope.
Delimit Scope re_scope with re.
Bind Scope re_scope with re.
Infix "·" := Seq (at level 41, right associativity) : re_scope.
Infix "∣" := Alt (at level 42, right associativity) : re_scope.

(** A successful match: where it ends and what the groups captured. *)
Definition outcome : Type := nat * list string.

Definition cont : Type := nat -> string -> list string -> option outcome.

Definition orElse (a b : option outcome) : option outcome :=
  match a with Some x => Some x | None => b end.

Fixpoint litFrom (eq : ascii -> ascii -> bool) (p : string) (pos : nat) (s : string)
  : option (nat * string) :=
  match p with
  | EmptyString => Some (pos, s)
  | String a p' =>
      match s with
      | String b s' => if eq b a then litFrom eq p' (S pos) s' else None
      | EmptyString => None
      end
  end.

(** Greedy repetition of a class: take as many characters as possible and
    give them back one at a time while the rest of the pattern fails. *)
Fixpoint starGreedy (p : ascii -> bool) (pos : nat) (s : string) (caps : list string)
  (k : cont) : option outcome :=
  match s with
  | String c s' =>
      if p c then orElse (starGreedy p (S pos) s' caps k) (k pos s caps)
      else k pos s caps
  | EmptyString => k pos s caps
  end.

(** Lazy repetition: try the rest of the pattern first, take one more
    character only when it fails. *)
Fixpoint starLazy (p : ascii -> bool) (pos : nat) (s : string) (caps : list string)
  (k : cont) : option outcome :=
  orElse (k pos s caps)
         match s with
         | String c s' => if p c then starLazy p (S pos) s' caps k else None
         | EmptyString => None
         end.

(** The matcher, in continuation-passing style: [k] is the rest of the
    pattern; failure of [k] makes the construct try its next choice. *)
Fixpoint matchRe (r : re) (pos : nat) (s : string) (caps : list string) (k : cont)
  : option outcome :=
  match r with
  | Cls p =>
      match s with
      | String c s' => if p c then k (S pos) s' caps else None
      | EmptyString => None
      end
  | Lit t =>
      match litFrom Ascii.eqb t pos s with
      | Some (pos', s') => k pos' s' caps
      | None => None
      end
  | LitI t =>
      match litFrom ciEq t pos s with
      | Some (pos', s') => k pos' s' caps
      | None => None
      end
  | Seq a b => matchRe a pos s caps (fun pos' s' caps' => matchRe b pos' s' caps' k)
  | Alt a b => orElse (matchRe a pos s caps k) (matchRe b pos s caps k)
  | Opt a => orElse (matchRe a pos s caps k) (k pos s caps)
  | Star p => starGreedy p pos s caps k
  | Plus p =>
      match s with
      | String c s' => if p c then starGreedy p (S pos) s' caps k else None
      | EmptyString => None
      end
  | PlusLazy p =>
      match s with
      | String c s' => if p c then starLazy p (S pos) s' caps k else None
      | EmptyString => None
      end
  | Cap a =>
      matchRe a pos s caps
        (fun pos' s' caps' =>
           k pos' s' (caps' ++ [String.substring 0 (pos' - pos) s])%list)
  | Bos => if Nat.eqb pos 0 then k pos s caps else None
  | Eos => match s with EmptyString => k pos s caps | String _ _ => None end
  end.

Definition matchAt (r : re) (pos : nat) (s : string) : option outcome :=
  matchRe r pos s [] (fun e _ caps => Some (e, caps)).

(** [s.match(r)] / [r.exec(s)] without the g flag: the leftmost match, as
    (start, end, captures). *)
Fixpoint searchFrom (r : re) (pos : nat) (s : string) : option (nat * nat * list string) :=
  match matchAt r pos s with
  | Some (e, caps) => Some (pos, e, caps)
  | None =>
      match s with
      | EmptyString => None
      | String _ s' => searchFrom r (S pos) s'
      end
  end.

Definition search (r : re) (s : string) : option (nat * nat * list string) :=
  searchFrom r 0 s.

(** [r.test(s)] *)
Definition test (r : re) (s : string) : bool :=
  match search r s with Some _ => true | None => false end.

(** [while ((m = r.exec(s)) !== null)] with the g flag: every match, each
    search resuming where the previous match ended.  [skip] counts the
    characters of the last match still to step over.  The patterns used this
    way match at least one character, so none matches at the very end. *)
Fixpoint execAllFrom (r : re) (skip pos : nat) (s : string) : list (list string) :=
  match s with
  | EmptyString => []
  | String _ s' =>
      match skip with
      | S n => execAllFrom r n (S pos) s'
      | O =>
          match matchAt r pos s with
          | Some (e, caps) => caps :: execAllFrom r (e - pos - 1) (S pos) s'
          | None => execAllFrom r 0 (S pos) s'
          end
      end
  end.

Definition execAll (r : re) (s : string) : list (list string) :=
  execAllFrom r 0 0 s.

(** [s.replace(r, '')] for a pattern without the g flag. *)
Definition removeFirst (r : re) (s : string) : string :=
  match search r s with
  | Some (b, e, _) =>
      String.substring 0 b s +:+ String.substring e (String.length s - e) s
  | None => s
  end.

End Regex.

(* ===================================================================== *)
(** * Shared types (src/types) *)
(* ===================================================================== *)

(** [FieldSchema]; [enumValues], [nestedSchema] and [sampleValues] are never
    read by the functions below and are left out. *)
Record FieldSchema : Type := mkField {
  f_name : string;
  f_type : string;
  f_required : bool;
  f_isArray : bool;
  f_isNested : bool
}.

(** [CollectionSchema]; the raw index metadata and the sample document are
    left out. *)
Record CollectionSchema : Type := mkCollection {
  c_name : string;
  c_fields : list FieldSchema;
  c_documentCount : Z
}.

Inductive RelType : Type := OneToOne | OneToMany | ManyToMany.
Inductive Direction : Type := Forward | Reverse | Bidirectional.

Record Relationship : Type := mkRel {
  r_from : string;
  r_to : string;
  r_field : string;
  r_type : RelType;
  r_direction : Direction
}.

(** [schemaCache?.collections || []] *)
Definition cacheCollections (schemaCache : option (list CollectionSchema))
  : list CollectionSchema :=
  match schemaCache with Some cs => cs | None => [] end.

(* ===================================================================== *)
(** * The query generator (src/services/query-generator.service.ts) *)
(* ===================================================================== *)

Module QueryGenerator.
Import JS Regex.
Local Open Scope re_scope.

Inductive IntentType : Type :=
| TCount | TFind | TAggregate | TSchema | TRelationship | TGeneral.

Definition typeName (t : IntentType) : string :=
  match t with
  | TCount => "count" | TFind => "find" | TAggregate => "aggregate"
  | TSchema => "schema" | TRelationship => "relationship" | TGeneral => "general"
  end.

Record QueryIntent : Type := mkIntent {
  i_type : IntentType;
  i_collection : option string;
  i_collections : option (list string);
  i_filters : option obj;
  i_fields : option (list string);
  i_aggregationStage : option string;
  i_limit : option Z;
  i_confidence : float;
  i_explanation : string
}.

Record Options : Type := mkOptions {
  o_projection : option obj;
  o_limit : Z
}.

(** [GeneratedQuery].  The declared type of [type] is the union of the three
    read verbs; at run time it is a string, which is what [validateQuery]
    inspects. *)
Record GeneratedQuery : Type := mkQuery {
  q_type : string;
  q_collection : string;
  q_query : option json;
  q_pipeline : option (list json);
  q_options : option Options;
  isValid : bool;
  validationErrors : list string
}.

(** ** Patterns *)

Definition notSpaceComma (c : ascii) : bool :=
  negb (isSpace c || Ascii.eqb c ","%char).

Definition notComma (c : ascii) : bool := negb (Ascii.eqb c ","%char).

Definition colonOrEquals (c : ascii) : bool :=
  Ascii.eqb c ":"%char || Ascii.eqb c "="%char.

(** [/where\s+(\w+)\s+(?:is|equals?|=)\s+([^\s,]+)/gi] *)
Definition wherePattern : re :=
  LitI "where" · Plus isSpace · Cap (Plus isWord) · Plus isSpace ·
  (LitI "is" ∣ (LitI "equal" · Opt (LitI "s")) ∣ Lit "=") ·
  Plus isSpace · Cap (Plus notSpaceComma).

(** [/(\w+)\s*[:=]\s*([^\s,]+)/g] *)
Definition eqPattern : re :=
  Cap (Plus isWord) · Star isSpace · Cls colonOrEquals · Star isSpace ·
  Cap (Plus notSpaceComma).

(** [/(?:show|get|display|select)\s+(?:me\s+)?([^,]+?)(?:\s+from|\s+in|$)/i] *)
Definition showPattern : re :=
  (LitI "show" ∣ LitI "get" ∣ LitI "display" ∣ LitI "select") · Plus isSpace ·
  Opt (LitI "me" · Plus isSpace) · Cap (PlusLazy notComma) ·
  ((Plus isSpace · LitI "from") ∣ (Plus isSpace · LitI "in") ∣ Eos).

(** [/(?:limit|top|first)\s+(\d+)/i] *)
Definition limitPattern : re :=
  (LitI "limit" ∣ LitI "top" ∣ LitI "first") · Plus isSpace · Cap (Plus isDigit).

(** [/group\s+by\s+(\w+)/i] *)
Definition groupByPattern : re :=
  LitI "group" · Plus isSpace · LitI "by" · Plus isSpace · Cap (Plus isWord).

(** ** Intent parsing *)

(** The coercion both passes apply to a captured value: [true], [false],
    a number when [!isNaN(Number(fieldValue))], the text otherwise. *)
Definition parseValue (fieldValue : string) : json :=
  if String.eqb (toLowerCase fieldValue) "true" then JBool true
  else if String.eqb (toLowerCase fieldValue) "false" then JBool false
  else if PrimFloat.is_nan (Number fieldValue) then JStr fieldValue
  else number (Number fieldValue).

(** The first loop of [extractFilters]: every match assigns. *)
Definition wherePass (message : string) (filters : obj) : obj :=
  fold_left
    (fun acc caps =>
       match caps with
       | [fieldName; fieldValue] => setProp acc fieldName (parseValue fieldValue)
       | _ => acc
       end)
    (execAll wherePattern message) filters.

(** The second loop: a match assigns only under [if (!filters[fieldName])]. *)
Definition eqPass (message : string) (filters : obj) : obj :=
  fold_left
    (fun acc caps =>
       match caps with
       | [fieldName; fieldValue] =>
           if propFalsy acc fieldName
           then setProp acc fieldName (parseValue fieldValue)
           else acc
       | _ => acc
       end)
    (execAll eqPattern message) filters.

Definition extractFilters (message : string) : obj :=
  eqPass message (wherePass message []).

Definition extractFields (message : string) (collections : list string)
  (schemaCache : option (list CollectionSchema)) : list string :=
  match collections with
  | [] => []
  | first :: _ =>
      match List.find (fun c => String.eqb (c_name c) first) (cacheCollections schemaCache) with
      | None => []
      | Some collectionSchema =>
          let fieldNames := List.map f_name (c_fields collectionSchema) in
          match search showPattern message with
          | Some (_, _, [fragment]) =>
              let fieldPart := toLowerCase fragment in
              List.filter (fun fieldName => includes fieldPart (toLowerCase fieldName))
                          fieldNames
          | _ => []
          end
      end
  end.

(** [Math.min(parseInt(m[1], 10), 1000)] *)
Definition extractLimit (message : string) : option Z :=
  match search limitPattern message with
  | Some (_, _, [digits]) => Some (Z.min (Z.of_N (digitsValue 0 digits)) 1000)
  | _ => None
  end.

(** [Math.min] on doubles. *)
Definition Math_min (a b : float) : float :=
  if (PrimFloat.is_nan a || PrimFloat.is_nan b)%bool then PrimFloat.nan
  else if PrimFloat.ltb a b then a else b.

Definition isGeneral (t : IntentType) : bool :=
  match t with TGeneral => true | _ => false end.

Definition isFind (t : IntentType) : bool :=
  match t with TFind => true | _ => false end.

Definition nonEmpty {A} (l : list A) : bool :=
  match l with [] => false | _ :: _ => true end.

Definition calculateConfidence (type : IntentType) (collections : list string)
  (filters : obj) : float :=
  let confidence := 0.5%float in
  let confidence :=
    if nonEmpty collections then (confidence + 0.3)%float else confidence in
  let confidence :=
    if nonEmpty (keys filters) then (confidence + 0.15)%float else confidence in
  let confidence :=
    if negb (isGeneral type) then (confidence + 0.15)%float else confidence in
  let confidence :=
    if isFind type && nonEmpty collections
    then Math_min (confidence + 0.2)%float 1%float else confidence in
  Math_min confidence 1%float.

Definition generateExplanation (type : IntentType) (collections : list string)
  (filters : obj) : string :=
  let explanation := typeName type +:+ " query" in
  let explanation :=
    if nonEmpty collections
    then explanation +:+ " on " +:+ join ", " collections else explanation in
  if nonEmpty (keys filters)
  then explanation +:+ " with filters: " +:+ stringify (JObj filters)
  else explanation.

Definition detectType (lowerMessage : string) : IntentType :=
  if includes lowerMessage "count" || includes lowerMessage "how many" then TCount
  else if includes lowerMessage "aggregate" || includes lowerMessage "group by"
  then TAggregate
  else if includes lowerMessage "find" || includes lowerMessage "show"
          || includes lowerMessage "get" || includes lowerMessage "see the data"
          || includes lowerMessage "view data" || includes lowerMessage "peek"
          || includes lowerMessage "look at"
  then TFind
  else if includes lowerMessage "structure" || includes lowerMessage "schema"
  then TSchema
  else if includes lowerMessage "relationship" || includes lowerMessage "reference"
  then TRelationship
  else TGeneral.

Definition mentionedCollections (lowerMessage : string)
  (collections : list CollectionSchema) : list string :=
  flat_map
    (fun colName =>
       if includes lowerMessage colName then
         match List.find (fun c => String.eqb (toLowerCase (c_name c)) colName) collections with
         | Some originalCollection => [c_name originalCollection]
         | None => []
         end
       else [])
    (List.map (fun c => toLowerCase (c_name c)) collections).

Definition parseIntent (message : string)
  (schemaCache : option (list CollectionSchema)) : QueryIntent :=
  let lowerMessage := toLowerCase message in
  let collections := cacheCollections schemaCache in
  let type := detectType lowerMessage in
  let mentioned := mentionedCollections lowerMessage collections in
  let filters := extractFilters message in
  {| i_type := type;
     i_collection := List.head mentioned;
     i_collections := Some mentioned;
     i_filters := Some filters;
     i_fields := Some (extractFields message mentioned schemaCache);
     i_aggregationStage := None;
     i_limit := extractLimit message;
     i_confidence := calculateConfidence type mentioned filters;
     i_explanation := generateExplanation type mentioned filters |}.

(** ** Query generation *)

Definition generateCountQuery (intent : QueryIntent) (collection : CollectionSchema)
  : GeneratedQuery :=
  let query := match i_filters intent with Some f => f | None => [] end in
  {| q_type := "count";
     q_collection := c_name collection;
     q_query := Some (JObj query);
     q_pipeline := None;
     q_options := None;
     isValid := true;
     validationErrors := [] |}.

(** [fields.forEach(f => { projection[f] = 1 })] *)
Definition projectionOf (names : list string) : obj :=
  fold_left (fun projection name => setProp projection name (JNum 1)) names [].

Definition defaultProjectionFields (collection : CollectionSchema) : list FieldSchema :=
  take 8 (List.filter
            (fun f => negb (String.eqb (f_type f) "Buffer")
                      && negb (String.eqb (f_type f) "Binary")
                      && negb (String.eqb (f_name f) "_id"))
            (c_fields collection)).

(** [if (intent.limit)]: a limit that is present and not zero. *)
Definition limitOr (limit : option Z) (dflt : Z) : Z :=
  match limit with
  | Some n => if n =? 0 then dflt else n
  | None => dflt
  end.

Definition generateFindQuery (intent : QueryIntent) (collection : CollectionSchema)
  : GeneratedQuery :=
  let query := match i_filters intent with Some f => f | None => [] end in
  let projection :=
    match i_fields intent with
    | Some (f :: fs) => Some (projectionOf (f :: fs))
    | _ =>
        let fields := defaultProjectionFields collection in
        if nonEmpty fields then Some (projectionOf (List.map f_name fields)) else None
    end in
  {| q_type := "find";
     q_collection := c_name collection;
     q_query := Some (JObj query);
     q_pipeline := None;
     q_options := Some {| o_projection := projection;
                          o_limit := limitOr (i_limit intent) 10 |};
     isValid := true;
     validationErrors := [] |}.

Definition parseAggregationStage (stage : string) : option json :=
  match search groupByPattern stage with
  | Some (_, _, [fieldName]) =>
      Some (JObj [("$group",
                   JObj [("_id", JStr ("$" +:+ fieldName));
                         ("count", JObj [("$sum", JNum 1)])])])
  | _ => None
  end.

Definition matchStage (intent : QueryIntent) : list json :=
  match i_filters intent with
  | Some (kv :: r) => [JObj [("$match", JObj (kv :: r))]]
  | _ => []
  end.

Definition groupStage (intent : QueryIntent) : list json :=
  match i_aggregationStage intent with
  | Some stage =>
      if String.eqb stage EmptyString then []
      else match parseAggregationStage stage with
           | Some g => [g]
           | None => []
           end
  | None => []
  end.

Definition generateAggregateQuery (intent : QueryIntent) (collection : CollectionSchema)
  : GeneratedQuery :=
  let pipeline :=
    (matchStage intent ++ groupStage intent
       ++ [JObj [("$limit", JNum (limitOr (i_limit intent) 100))]])%list in
  {| q_type := "aggregate";
     q_collection := c_name collection;
     q_query := None;
     q_pipeline := Some pipeline;
     q_options := None;
     isValid := true;
     validationErrors := [] |}.

(** ** The validation gate *)

Definition readOnlyTypes : list string := ["count"; "find"; "aggregate"].

(** The tokens looked for in the serialized query object ... *)
Definition queryTokens : list string :=
  ["$set"; "$unset"; "$push"; "$pull"; "$inc"; "$rename"].

(** ... and those looked for in the serialized pipeline. *)
Definition pipelineTokens : list string :=
  ["$out"; "$merge"; "$set"; "$unset"].

Definition includesAny (s : string) (tokens : list string) : bool :=
  existsb (includes s) tokens.

Definition typeErrors (query : GeneratedQuery) : list string :=
  if existsb (String.eqb (q_type query)) readOnlyTypes then []
  else ["Query type '" +:+ q_type query +:+ "' is not allowed"].

Definition queryErrors (query : GeneratedQuery) : list string :=
  match q_query query with
  | Some q =>
      if truthy q && includesAny (stringify q) queryTokens
      then ["Write operations are not allowed"] else []
  | None => []
  end.

Definition pipelineErrors (query : GeneratedQuery) : list string :=
  match q_pipeline query with
  | Some p =>
      if includesAny (stringify (JArr p)) pipelineTokens
      then ["Write operations in pipeline are not allowed"] else []
  | None => []
  end.

(** [validateQuery] returns [{ isValid, errors }]. *)
Definition validateQuery (query : GeneratedQuery) : bool * list string :=
  let errors := (typeErrors query ++ queryErrors query ++ pipelineErrors query)%list in
  (negb (nonEmpty errors), errors).

Definition withValidation (query : GeneratedQuery) : GeneratedQuery :=
  let queryValidation := validateQuery query in
  {| q_type := q_type query;
     q_collection := q_collection query;
     q_query := q_query query;
     q_pipeline := q_pipeline query;
     q_options := q_options query;
     isValid := fst queryValidation;
     validationErrors := snd queryValidation |}.

Definition invalidResult (collection error : string) : GeneratedQuery :=
  {| q_type := "find";
     q_collection := collection;
     q_query := Some (JObj []);
     q_pipeline := None;
     q_options := None;
     isValid := false;
     validationErrors := [error] |}.

Definition findCollection (name : string)
  (schemaCache : option (list CollectionSchema)) : option CollectionSchema :=
  List.find (fun c => String.eqb (c_name c) name) (cacheCollections schemaCache).

Definition generateQuery (intent : QueryIntent)
  (schemaCache : option (list CollectionSchema)) : GeneratedQuery :=
  match i_collection intent with
  | None => invalidResult EmptyString "No collection specified in query"
  | Some name =>
      if String.eqb name EmptyString
      then invalidResult EmptyString "No collection specified in query"
      else
        match findCollection name schemaCache with
        | None =>
            invalidResult name ("Collection '" +:+ name +:+ "' not found in schema")
        | Some collection =>
            withValidation
              match i_type intent with
              | TCount => generateCountQuery intent collection
              | TFind => generateFindQuery intent collection
              | TAggregate => generateAggregateQuery intent collection
              | _ => generateFindQuery intent collection
              end
        end
  end.

End QueryGenerator.

(* ===================================================================== *)
(** * The schema service: field inference and relationship detection *)
(* ===================================================================== *)

Module SchemaService.
Import JS Regex.
Local Open Scope re_scope.

(** ** Sampled documents *)

#[local] Unset Elimination Schemes.
Inductive value : Type :=
| VNull
| VUndefined
| VBool (b : bool)
| VNum (z : Z)
| VStr (s : string)
| VArr (l : list value)
| VDate (ms : Z)
| VObj (entries : list (string * value)).
#[local] Set Elimination Schemes.

Definition document : Type := list (string * value).

Definition valueTruthy (v : value) : bool :=
  match v with
  | VNull | VUndefined => false
  | VBool b => b
  | VNum z => negb (z =? 0)
  | VStr s => negb (String.eqb s EmptyString)
  | VArr _ | VDate _ | VObj _ => true
  end.

Fixpoint entryOf (es : list (string * value)) (k : string) : option value :=
  match es with
  | [] => None
  | (k', v) :: r => if String.eqb k' k then Some v else entryOf r k
  end.

Definition getFieldType (v : value) : string :=
  match v with
  | VNull => "null"
  | VUndefined => "undefined"
  | VArr _ => "array"
  | VDate _ => "date"
  | VObj es =>
      match entryOf es "_id" with
      | Some id => if valueTruthy id then "objectId" else "object"
      | None => "object"
      end
  | VBool _ => "boolean"
  | VNum _ => "number"
  | VStr _ => "string"
  end.

(** [value === null || value === undefined] *)
Definition isNullish (v : value) : bool :=
  match v with VNull | VUndefined => true | _ => false end.

Definition isArrayValue (v : value) : bool :=
  match v with VArr _ => true | _ => false end.

(** A non-null object that is neither an array nor a date. *)
Definition isPlainObject (v : value) : bool :=
  match v with VObj _ => true | _ => false end.

Definition createFieldSchema (name : string) (v : value) : FieldSchema :=
  {| f_name := name;
     f_type := getFieldType v;
     f_required := negb (isNullish v);
     f_isArray := isArrayValue v;
     f_isNested := isPlainObject v |}.

Definition updateFieldSchema (field : FieldSchema) (v : value) : FieldSchema :=
  let required := if isNullish v then false else f_required field in
  let currentType := getFieldType v in
  let type :=
    if negb (String.eqb (f_type field) currentType)
       && negb (String.eqb currentType "null")
    then "mixed" else f_type field in
  {| f_name := f_name field;
     f_type := type;
     f_required := required;
     f_isArray := f_isArray field;
     f_isNested := f_isNested field |}.

(** ** The field map: a [Map<string, FieldSchema>] in insertion order *)

Definition fieldMap : Type := list (string * FieldSchema).

Fixpoint mapGet (m : fieldMap) (path : string) : option FieldSchema :=
  match m with
  | [] => None
  | (p, f) :: r => if String.eqb p path then Some f else mapGet r path
  end.

Fixpoint mapUpdate (m : fieldMap) (path : string) (g : FieldSchema -> FieldSchema)
  : fieldMap :=
  match m with
  | [] => []
  | (p, f) :: r =>
      if String.eqb p path then (p, g f) :: r else (p, f) :: mapUpdate r path g
  end.

(** One iteration of the loop body, before the recursive descent: create
    the entry at first sight, update it in place afterwards. *)
Definition observe (m : fieldMap) (fieldPath key : string) (v : value) : fieldMap :=
  match mapGet m fieldPath with
  | None => (m ++ [(fieldPath, createFieldSchema key v)])%list
  | Some _ => mapUpdate m fieldPath (fun f => updateFieldSchema f v)
  end.

Definition pathOf (prefix key : string) : string :=
  if String.eqb prefix EmptyString then key else prefix +:+ "." +:+ key.

(** [extractFieldsFromDocument(obj, prefix, fieldMap, depth)].  It is only
    ever called on a document or on a nested plain object, whose entries
    [Object.entries] lists. *)
Fixpoint extractFieldsFromDocument (obj : value) (prefix : string) (m : fieldMap)
  (depth : nat) {struct obj} : fieldMap :=
  match obj with
  | VObj entries =>
      if Nat.ltb 3 depth then m
      else
        (fix loop (es : list (string * value)) (m : fieldMap) {struct es} : fieldMap :=
           match es with
           | [] => m
           | (key, v) :: rest =>
               let fieldPath := pathOf prefix key in
               let m := observe m fieldPath key v in
               let m :=
                 match v with
                 | VObj _ => extractFieldsFromDocument v fieldPath m (S depth)
                 | _ => m
                 end in
               loop rest m
           end) entries m
  | _ => m
  end.

(** [analyzeFields]: the schemas in first-seen order (the empty sample set
    gives the empty list through the same fold). *)
Definition analyzeFields (samples : list document) : list FieldSchema :=
  List.map snd
    (fold_left (fun m doc => extractFieldsFromDocument (VObj doc) EmptyString m 0)
               samples []).

(** The field map [analyzeFields] builds, with its keys (the full paths). *)
Definition analyzeFieldMap (samples : list document) : fieldMap :=
  fold_left (fun m doc => extractFieldsFromDocument (VObj doc) EmptyString m 0)
            samples [].

(** The entries the traversal touches, in the order in which it touches
    them: (full path, key, value).  [extractFieldsFromDocument] is the fold
    of [observe] over this list (lemma [extract_is_fold_of_visits]). *)
Fixpoint visits (obj : value) (prefix : string) (depth : nat) {struct obj}
  : list (string * string * value) :=
  match obj with
  | VObj entries =>
      if Nat.ltb 3 depth then []
      else
        (fix loop (es : list (string * value)) {struct es} : list (string * string * value) :=
           match es with
           | [] => []
           | (key, v) :: rest =>
               let fieldPath := pathOf prefix key in
               ((fieldPath, key, v)
                  :: match v with
                     | VObj _ => visits v fieldPath (S depth)
                     | _ => []
                     end)
               ++ loop rest
           end)%list entries
  | _ => []
  end.

Definition sampleVisits (samples : list document) : list (string * string * value) :=
  flat_map (fun doc => visits (VObj doc) EmptyString 0) samples.

Definition observeVisit (m : fieldMap) (visit : string * string * value) : fieldMap :=
  match visit with (fieldPath, key, v) => observe m fieldPath key v end.

(** The values seen at one path. *)
Definition valuesAt (path : string) (vs : list (string * string * value)) : list value :=
  List.map snd (List.filter (fun visit => String.eqb (fst (fst visit)) path) vs).

(** A schema updated with a run of later values. *)
Definition updatedWith (f : FieldSchema) (vals : list value) : FieldSchema :=
  fold_left updateFieldSchema vals f.

(** ** Relationship detection *)

Definition isNameStart (c : ascii) : bool :=
  isUpper c || isLower c || Nat.eqb (code c) 95.

Definition refSuffix : re :=
  Lit "id" ∣ Lit "Id" ∣ Lit "ID" ∣ Lit "ref" ∣ Lit "Ref" ∣ Lit "REF".

(** [REGEX_PATTERNS.COLLECTION_REFERENCE]:
    [/^[a-zA-Z_][a-zA-Z0-9_]*_(id|Id|ID|ref|Ref|REF)$/] *)
Definition COLLECTION_REFERENCE : re :=
  Bos · Cls isNameStart · Star isWord · Lit "_" · Cap refSuffix · Eos.

(** [/_(id|Id|ID|ref|Ref|REF)$/] *)
Definition suffixPattern : re := Lit "_" · Cap refSuffix · Eos.

(** [new Set(collections.map(c => c.name))] *)
Definition nameSet (collections : list CollectionSchema) : gset string :=
  list_to_set (List.map c_name collections).

Definition has (names : gset string) (x : string) : bool :=
  bool_decide (x ∈ names).

Definition singularOf (baseName : string) : string :=
  if endsWith baseName "s" then dropEnd 1 baseName else baseName.

Definition extractReferencedCollection (fieldName : string)
  (collectionNames : gset string) : option string :=
  let baseName := removeFirst suffixPattern fieldName in
  if has collectionNames baseName then Some baseName
  else
    let plural := baseName +:+ "s" in
    if has collectionNames plural then Some plural
    else
      let singular := singularOf baseName in
      if has collectionNames singular then Some singular else None.

(** [/^(.+)Id$/], [/^(.+)_id$/], [/^(.+)Ref$/], [/^(.+)_ref$/] *)
Definition inferPatterns : list re :=
  [ Bos · Cap (Plus isDot) · Lit "Id" · Eos;
    Bos · Cap (Plus isDot) · Lit "_id" · Eos;
    Bos · Cap (Plus isDot) · Lit "Ref" · Eos;
    Bos · Cap (Plus isDot) · Lit "_ref" · Eos ].

Fixpoint inferFrom (patterns : list re) (fieldName : string)
  (collectionNames : gset string) : option string :=
  match patterns with
  | [] => None
  | pattern :: rest =>
      match search pattern fieldName with
      | Some (_, _, [baseName]) => extractReferencedCollection baseName collectionNames
      | _ => inferFrom rest fieldName collectionNames
      end
  end.

Definition inferCollectionFromFieldName (fieldName : string)
  (collectionNames : gset string) : option string :=
  inferFrom inferPatterns fieldName collectionNames.

Definition relTypeOf (field : FieldSchema) : RelType :=
  if f_isArray field then OneToMany else OneToOne.

(** A found collection name counts only when it is truthy, that is, not the
    empty string. *)
Definition edgeTo (collection : CollectionSchema) (field : FieldSchema)
  (target : option string) : list Relationship :=
  match target with
  | Some to =>
      if String.eqb to EmptyString then []
      else [ {| r_from := c_name collection; r_to := to; r_field := f_name field;
                r_type := relTypeOf field; r_direction := Forward |} ]
  | None => []
  end.

(** The two heuristics applied to one field, in the order of the loop body. *)
Definition fieldRelationships (collectionNames : gset string)
  (collection : CollectionSchema) (field : FieldSchema) : list Relationship :=
  ((if test COLLECTION_REFERENCE (f_name field)
    then edgeTo collection field
           (extractReferencedCollection (f_name field) collectionNames)
    else [])
   ++
   (if String.eqb (f_type field) "objectId" && negb (String.eqb (f_name field) "_id")
    then edgeTo collection field
           (inferCollectionFromFieldName (f_name field) collectionNames)
    else []))%list.

Definition collectionRelationships (collectionNames : gset string)
  (collection : CollectionSchema) : list Relationship :=
  flat_map (fieldRelationships collectionNames collection) (c_fields collection).

Definition relKey (rel : Relationship) : string :=
  r_from rel +:+ "-" +:+ r_to rel +:+ "-" +:+ r_field rel.

Fixpoint dedupFrom (seen : gset string) (relationships : list Relationship)
  : list Relationship :=
  match relationships with
  | [] => []
  | rel :: rest =>
      if bool_decide (relKey rel ∈ seen) then dedupFrom seen rest
      else rel :: dedupFrom ({[ relKey rel ]} ∪ seen) rest
  end.

Definition deduplicateRelationships (relationships : list Relationship)
  : list Relationship :=
  dedupFrom ∅ relationships.

Definition detectRelationships (collections : list CollectionSchema)
  : list Relationship :=
  let collectionNames := nameSet collections in
  deduplicateRelationships
    (flat_map (collectionRelationships collectionNames) collections).

End SchemaService.

(* ===================================================================== *)
(** * The connection pool manager *)
(* ===================================================================== *)

Module ConnectionPool.
Import JS.

(** A [MongoClient] is known by the order of its creation. *)
Definition client : Type := nat.

Record PoolEntry : Type := mkEntry {
  e_client : client;
  lastUsed : Z;      (* milliseconds, as [Date.getTime] gives them *)
  refCount : Z
}.

(** The manager: the [pools] map, the clients on which [close] has been
    called, the clients created so far, and whether the cleanup timer is
    still installed. *)
Record Manager : Type := mkManager {
  pools : gmap string PoolEntry;
  closed : gset client;
  created : nat;
  cleanupInterval : bool
}.

(** [new ConnectionPoolManager()] *)
Definition initial : Manager :=
  {| pools := ∅; closed := ∅; created := 0; cleanupInterval := true |}.

(** [CONSTANTS.CACHE.CONNECTION_POOL_IDLE] *)
Definition CONNECTION_POOL_IDLE : Z := 30 * 60 * 1000.

(** ToInt32 *)
Definition toInt32 (z : Z) : Z := (z + 2 ^ 31) mod 2 ^ 32 - 2 ^ 31.

(** One round of the hash loop: [hash = ((hash << 5) - hash) + char;
    hash = hash & hash]. *)
Definition hashStep (hash : Z) (c : ascii) : Z :=
  toInt32 (toInt32 (Z.shiftl hash 5) - hash + Z.of_nat (code c)).

Fixpoint hashLoop (hash : Z) (s : string) : Z :=
  match s with
  | EmptyString => hash
  | String c r => hashLoop (hashStep hash c) r
  end.

Definition hashConnectionString (connectionString : string) : string :=
  "pool_" +:+ numberToString (Z.abs (hashLoop 0 connectionString)).

Inductive acquired : Type :=
| Client (c : client)
| Thrown (message : string).

(** [getConnection(connectionString)], called at time [now]; [connects]
    tells whether [client.connect()] succeeds, should it be attempted. *)
Definition getConnection (connectionString : string) (now : Z) (connects : bool)
  (m : Manager) : acquired * Manager :=
  if String.eqb connectionString EmptyString
  then (Thrown "Connection string is required", m)
  else
    let poolKey := hashConnectionString connectionString in
    match pools m !! poolKey with
    | Some existingPool =>
        (Client (e_client existingPool),
         {| pools := <[poolKey := {| e_client := e_client existingPool;
                                     lastUsed := now;
                                     refCount := refCount existingPool + 1 |}]> (pools m);
            closed := closed m;
            created := created m;
            cleanupInterval := cleanupInterval m |})
    | None =>
        let c := created m in
        if connects then
          (Client c,
           {| pools := <[poolKey := {| e_client := c; lastUsed := now; refCount := 1 |}]>
                         (pools m);
              closed := closed m;
              created := S c;
              cleanupInterval := cleanupInterval m |})
        else
          (Thrown "connect failed",
           {| pools := pools m;
              closed := closed m;
              created := S c;
              cleanupInterval := cleanupInterval m |})
    end.

Definition releaseConnection (connectionString : string) (now : Z) (m : Manager)
  : Manager :=
  let poolKey := hashConnectionString connectionString in
  match pools m !! poolKey with
  | Some pool =>
      {| pools := <[poolKey := {| e_client := e_client pool;
                                  lastUsed := now;
                                  refCount := refCount pool - 1 |}]> (pools m);
         closed := closed m;
         created := created m;
         cleanupInterval := cleanupInterval m |}
  | None => m
  end.

(** The condition of the sweep: [idleTime > idleTimeout && pool.refCount === 0]. *)
Definition evictable (now : Z) (pool : PoolEntry) : bool :=
  (CONNECTION_POOL_IDLE <? now - lastUsed pool) && (refCount pool =? 0).

(** One firing of the cleanup timer at time [now]: every entry is visited,
    the evictable ones are closed and deleted. *)
Definition sweep (now : Z) (m : Manager) : Manager :=
  {| pools := filter (fun kv => evictable now (snd kv) = false) (pools m);
     closed := closed m ∪
               list_to_set
                 (List.map (fun kv => e_client (snd kv))
                    (map_to_list (filter (fun kv => evictable now (snd kv) = true) (pools m))));
     created := created m;
     cleanupInterval := cleanupInterval m |}.

(** The entries in the order in which the [Map] iterates them, the order of
    their insertion.  An entry is inserted with a client that was just
    created, and clients are numbered as they are created, so this is the
    order of the clients. *)
Fixpoint insertByClient (kv : string * PoolEntry) (l : list (string * PoolEntry))
  : list (string * PoolEntry) :=
  match l with
  | [] => [kv]
  | x :: r =>
      if (e_client (snd kv) <=? e_client (snd x))%nat
      then kv :: l else x :: insertByClient kv r
  end.

Definition entries (m : Manager) : list (string * PoolEntry) :=
  fold_right insertByClient [] (map_to_list (pools m)).

(** The loop of [closeAll]: [await pool.client.close()] entry after entry;
    [closes c] tells whether [close()] on client [c] resolves.  The first
    rejection ends the loop. *)
Fixpoint closeEach (closes : client -> bool) (l : list (string * PoolEntry))
  (closed : gset client) : bool * gset client :=
  match l with
  | [] => (true, closed)
  | kv :: rest =>
      if closes (e_client (snd kv))
      then closeEach closes rest (closed ∪ {[ e_client (snd kv) ]})
      else (false, closed ∪ {[ e_client (snd kv) ]})
  end.

(** [closeAll()]: [true] when it returns, [false] when a [close()] rejects
    and the rejection leaves [closeAll] before the map is cleared and the
    timer stopped. *)
Definition closeAll (closes : client -> bool) (m : Manager) : bool * Manager :=
  match closeEach closes (entries m) (closed m) with
  | (true, closed') =>
      (true,
       {| pools := ∅; closed := closed'; created := created m;
          cleanupInterval := false |})
  | (false, closed') =>
      (false,
       {| pools := pools m; closed := closed'; created := created m;
          cleanupInterval := cleanupInterval m |})
  end.

(** [getPoolStats], one entry at a time. *)
Definition refCountOf (connectionString : string) (m : Manager) : option Z :=
  refCount <$> pools m !! hashConnectionString connectionString.

(** What can happen to the pool short of [closeAll]. *)
Inductive event : Type :=
| Sweep (now : Z)
| Release (connectionString : string) (now : Z)
| Acquire (connectionString : string) (now : Z) (connects : bool).

Definition step (m : Manager) (ev : event) : Manager :=
  match ev with
  | Sweep now => sweep now m
  | Release cs now => releaseConnection cs now m
  | Acquire cs now connects => snd (getConnection cs now connects m)
  end.

Definition run (evs : list event) (m : Manager) : Manager :=
  fold_left step evs m.

End ConnectionPool.

(* ===================================================================== *)
(** * Statements used by the properties *)
(* ===================================================================== *)

Module Spec.
Import JS QueryGenerator.

(** The three conditions under which the gate of [validateQuery] adds an
    error. *)
Definition typeRejected (q : GeneratedQuery) : Prop :=
  ~ In (q_type q) readOnlyTypes.

Definition queryRejected (q : GeneratedQuery) : Prop :=
  exists j, q_query q = Some j /\ truthy j = true
            /\ exists t, In t queryTokens /\ includes (stringify j) t = true.

Definition pipelineRejected (q : GeneratedQuery) : Prop :=
  exists p, q_pipeline q = Some p
            /\ exists t, In t pipelineTokens /\ includes (stringify (JArr p)) t = true.

(** A field the default projection may show. *)
Definition eligible (f : FieldSchema) : bool :=
  negb (String.eqb (f_type f) "Buffer") && negb (String.eqb (f_type f) "Binary")
  && negb (String.eqb (f_name f) "_id").

(** The intent names a collection of the snapshot. *)
Definition resolves (intent : QueryIntent) (schemaCache : option (list CollectionSchema))
  (collection : CollectionSchema) : Prop :=
  exists name, i_collection intent = Some name /\ name <> EmptyString
               /\ findCollection name schemaCache = Some collection.

(** The four bonus conditions of the confidence score, in the order in which
    the score takes them up: a collection was mentioned, a filter was
    extracted, the type is not general, the type is find and a collection
    was mentioned.  They are stated on the arguments themselves, apart from
    the tests the code makes. *)
Definition bonuses (type : IntentType) (collections : list string) (filters : obj)
  : list bool :=
  [ negb (Nat.eqb (length collections) 0);
    negb (Nat.eqb (length filters) 0);
    match type with TGeneral => false | _ => true end;
    match type with TFind => negb (Nat.eqb (length collections) 0) | _ => false end ].

Definition bonusCount (bs : list bool) : nat :=
  length (List.filter (fun b => b) bs).

(** Every condition satisfied in [bs] is satisfied in [bs']. *)
Definition bonusesIncluded (bs bs' : list bool) : bool :=
  forallb (fun p => implb (fst p) (snd p)) (combine bs bs').

(** A score clamped to 1. *)
Definition clamped (x : float) : float :=
  if PrimFloat.ltb 1 x then 1%float else x.

(** The score as the design document words it: 0.5, plus 0.3, 0.15 and 0.15
    for the first three conditions, added in that order, plus a further 0.2
    clamped to 1 for the fourth, the total clamped to 1. *)
Definition confidenceSum (bs : list bool) : float :=
  match bs with
  | [b1; b2; b3; b4] =>
      let total :=
        (0.5 + (if b1 then 0.3 else 0) + (if b2 then 0.15 else 0)
         + (if b3 then 0.15 else 0))%float in
      let total := if b4 then clamped (total + 0.2)%float else total in
      clamped total
  | _ => PrimFloat.nan
  end.

(** [t] is a substring of [s]. *)
Definition sub (t s : string) : Prop := exists a b, s = a +:+ t +:+ b.

(** A token occurs in a value when it is part of one of its keys or of one
    of its strings, at any depth. *)
Inductive occurs (t : string) : json -> Prop :=
| occurs_string s : includes s t = true -> occurs t (JStr s)
| occurs_element l j : In j l -> occurs t j -> occurs t (JArr l)
| occurs_key kvs k v : In (k, v) kvs -> includes k t = true -> occurs t (JObj kvs)
| occurs_value kvs k v : In (k, v) kvs -> occurs t v -> occurs t (JObj kvs).

(** The tokens the gate looks for in what an intent of a given type compiles
    to: the pipeline list for an aggregate, the query list otherwise. *)
Definition gateTokens (type : IntentType) : list string :=
  match type with
  | TAggregate => pipelineTokens
  | _ => queryTokens
  end.

End Spec.

(** ** Statements about relationship detection *)

Module RelSpec.
Import JS SchemaService.

(** A relationship as the tuple (from, to, field, type), and the triple its
    deduplication is about. *)
Definition relTuple (rel : Relationship) : string * string * string * RelType :=
  (r_from rel, r_to rel, r_field rel, r_type rel).

Definition relTriple (rel : Relationship) : string * string * string :=
  (r_from rel, r_to rel, r_field rel).

Definition tripleKey (t : string * string * string) : string :=
  match t with (from, to, field) => from +:+ "-" +:+ to +:+ "-" +:+ field end.

(** A name without the character that separates the parts of a
    deduplication key. *)
Definition hyphenFree (s : string) : Prop :=
  strAll (fun c => negb (Ascii.eqb c "-"%char)) s = true.

(** A collection as [analyzeCollection] describes it from its samples. *)
Definition sampled (name : string) (samples : list document) : CollectionSchema :=
  {| c_name := name; c_fields := analyzeFields samples;
     c_documentCount := Z.of_nat (length samples) |}.

(** Four collections with pairwise distinct names, as sampling one document
    of each describes them, on which the key of two different edges is the
    same text, [a-y-y-y-yId]. *)
Definition clashing : list CollectionSchema :=
  [ sampled "a" [ [("_id", VStr "a1"); ("y-yId", VObj [("_id", VStr "u1")])] ];
    sampled "a-y-y" [ [("_id", VStr "b1"); ("yId", VObj [("_id", VStr "u2")])] ];
    sampled "y" [ [("_id", VStr "u2")] ];
    sampled "y-y" [ [("_id", VStr "u1")] ] ].

(** Two collections of the same name whose [user_id] fields differ in
    array-ness. *)
Definition twins : list CollectionSchema :=
  [ {| c_name := "orders";
       c_fields := [mkField "user_id" "string" true false false];
       c_documentCount := 1 |};
    {| c_name := "orders";
       c_fields := [mkField "user_id" "array" true true false];
       c_documentCount := 1 |};
    {| c_name := "users"; c_fields := []; c_documentCount := 0 |} ].

(** A small shop. *)
Definition shop : list CollectionSchema :=
  [ {| c_name := "orders";
       c_fields := [ mkField "_id" "objectId" true false false;
                     mkField "userId" "objectId" true false false;
                     mkField "product_id" "string" true false false ];
       c_documentCount := 10 |};
    {| c_name := "users"; c_fields := []; c_documentCount := 5 |};
    {| c_name := "products"; c_fields := []; c_documentCount := 7 |} ].

End RelSpec.

(* ===================================================================== *)
(** * Sample data for the examples *)
(* ===================================================================== *)

Module Samples.
Import JS QueryGenerator.

(** A snapshot with one collection. *)
Definition usersSnapshot : option (list CollectionSchema) :=
  Some [ {| c_name := "users";
            c_fields := [ mkField "_id" "objectId" true false false;
                          mkField "name" "string" true false false;
                          mkField "payload" "mixed" true false false;
                          mkField "avatar" "Binary" false false false ];
            c_documentCount := 42 |} ].

(** An intent on a collection the snapshot does not have. *)
Definition ordersIntent : QueryIntent :=
  {| i_type := TCount; i_collection := Some "orders"; i_collections := Some ["orders"];
     i_filters := Some []; i_fields := Some []; i_aggregationStage := None;
     i_limit := None; i_confidence := calculateConfidence TCount ["orders"] [];
     i_explanation := "count query on orders" |}.

(** A find intent without requested fields. *)
Definition browseIntent (limit : option Z) : QueryIntent :=
  {| i_type := TFind; i_collection := Some "users"; i_collections := Some ["users"];
     i_filters := Some []; i_fields := Some []; i_aggregationStage := None;
     i_limit := limit; i_confidence := calculateConfidence TFind ["users"] [];
     i_explanation := "find query on users" |}.

(** A find intent with the given filters. *)
Definition filterIntent (type : IntentType) (filters : obj) : QueryIntent :=
  {| i_type := type; i_collection := Some "users"; i_collections := Some ["users"];
     i_filters := Some filters; i_fields := Some []; i_aggregationStage := None;
     i_limit := None; i_confidence := calculateConfidence type ["users"] filters;
     i_explanation := generateExplanation type ["users"] filters |}.

End Samples.

(* ===================================================================== *)
(** * The Mongo service on top of the pool, the response orchestrator and
      the project model's freshness tests *)
(* ===================================================================== *)

Module MongoService.
Import JS ConnectionPool.

(** A [MongoDBService] instance: its connection string, the client it was
    last handed, and its [isConnected] flag. *)
Record Service : Type := mkService {
  connectionString : string;
  s_client : option client;
  isConnected : bool
}.

(** [new MongoDBService(connectionString)] *)
Definition newService (cs : string) : Service :=
  {| connectionString := cs; s_client := None; isConnected := false |}.

(** [connect()]: [None] when it returns, [Some message] when it throws a
    [DatabaseConnectionError]. *)
Definition connect (now : Z) (connects : bool) (svc : Service) (m : Manager)
  : option string * Service * Manager :=
  match getConnection (connectionString svc) now connects m with
  | (Client c, m') =>
      (None,
       {| connectionString := connectionString svc; s_client := Some c;
          isConnected := true |},
       m')
  | (Thrown message, m') => (Some message, svc, m')
  end.

(** [disconnect()] *)
Definition disconnect (now : Z) (svc : Service) (m : Manager) : Service * Manager :=
  match s_client svc with
  | Some c =>
      if isConnected svc
      then ({| connectionString := connectionString svc; s_client := Some c;
               isConnected := false |},
            releaseConnection (connectionString svc) now m)
      else (svc, m)
  | None => (svc, m)
  end.

(** The reference count of a pool key, an absent entry counting for none. *)
Definition countAt (key : string) (m : Manager) : Z :=
  match pools m !! key with
  | Some pool => refCount pool
  | None => 0
  end.

(** The state of the process: the one pool manager and the service
    instances created so far. *)
Definition System : Type := Manager * list Service.

Inductive action : Type :=
| New (cs : string)                              (* new MongoDBService(cs) *)
| Connect (i : nat) (now : Z) (connects : bool)  (* instance i: connect() *)
| Disconnect (i : nat) (now : Z)                 (* instance i: disconnect() *)
| Tick (now : Z).                                (* the cleanup timer fires *)

Definition act (sys : System) (a : action) : System :=
  let (m, svcs) := sys in
  match a with
  | New cs => (m, (svcs ++ [newService cs])%list)
  | Connect i now connects =>
      match svcs !! i with
      | Some svc =>
          match connect now connects svc m with
          | (_, svc', m') => (m', <[i := svc']> svcs)
          end
      | None => sys
      end
  | Disconnect i now =>
      match svcs !! i with
      | Some svc =>
          match disconnect now svc m with
          | (svc', m') => (m', <[i := svc']> svcs)
          end
      | None => sys
      end
  | Tick now => (sweep now m, svcs)
  end.

Definition play (actions : list action) (sys : System) : System :=
  fold_left act actions sys.





(** Everything that can happen to the pool manager itself. *)
Inductive poolOp : Type :=
| AcquireOp (cs : string) (now : Z) (connects : bool)
| ReleaseOp (cs : string) (now : Z)
| SweepOp (now : Z)
| CloseAllOp (closes : client -> bool).

Definition applyOp (m : Manager) (op : poolOp) : Manager :=
  match op with
  | AcquireOp cs now connects => snd (getConnection cs now connects m)
  | ReleaseOp cs now => releaseConnection cs now m
  | SweepOp now => sweep now m
  | CloseAllOp closes => snd (closeAll closes m)
  end.

(** No [close()] that a [closeAll] of the history awaits rejects. *)
Definition closesResolve (ops : list poolOp) : Prop :=
  forall closes, In (CloseAllOp closes) ops -> forall c, closes c = true.

Definition applyOps (ops : list poolOp) (m : Manager) : Manager :=
  fold_left applyOp ops m.

End MongoService.

Module AIService.
Import JS QueryGenerator ConnectionPool MongoService.

(** [detectQueryType] *)
Definition detectQueryType (message : string) : string :=
  let lowerMessage := toLowerCase message in
  if includes lowerMessage "count" || includes lowerMessage "how many" then "count"
  else if includes lowerMessage "aggregate" || includes lowerMessage "group by"
  then "aggregate"
  else if includes lowerMessage "find" || includes lowerMessage "show"
          || includes lowerMessage "get"
  then "find"
  else if includes lowerMessage "structure" || includes lowerMessage "schema"
  then "schema"
  else if includes lowerMessage "relationship" || includes lowerMessage "reference"
  then "relationship"
  else "general".

(** [extractCollections] *)
Definition extractCollections (message : string)
  (schemaCache : option (list CollectionSchema)) : list string :=
  let lowerMessage := toLowerCase message in
  List.map c_name
    (List.filter (fun col => includes lowerMessage (toLowerCase (c_name col)))
                 (cacheCollections schemaCache)).

(** [mongoUri], an optional string, as a condition. *)
Definition uriGiven (mongoUri : option string) : bool :=
  match mongoUri with
  | Some uri => negb (String.eqb uri EmptyString)
  | None => false
  end.

(** The condition under which [generateResponse] goes on to generate a
    query: [intent.confidence > 0.6 && intent.type !== 'general' &&
    intent.type !== 'schema' && intent.type !== 'relationship' && mongoUri]. *)
Definition attemptsQuery (intent : QueryIntent) (mongoUri : option string) : bool :=
  PrimFloat.ltb 0.6 (i_confidence intent)
  && negb (isGeneral (i_type intent))
  && negb (match i_type intent with TSchema => true | _ => false end)
  && negb (match i_type intent with TRelationship => true | _ => false end)
  && uriGiven mongoUri.

(** The query [generateResponse] hands to [executeQuery], if any: the one
    generated under [attemptsQuery], when it is valid. *)
Definition queryToExecute (message : string)
  (schemaCache : option (list CollectionSchema)) (mongoUri : option string)
  : option GeneratedQuery :=
  let intent := parseIntent message schemaCache in
  if attemptsQuery intent mongoUri then
    let generatedQuery := generateQuery intent schemaCache in
    if isValid generatedQuery then Some generatedQuery else None
  else None.

(** The operation [executeQuery] asks of the Mongo service. *)
Inductive dbCall : Type :=
| GetCollectionCount (databaseName collection : string)
| ExecuteReadQuery (databaseName collection : string) (query : option json)
    (options : option Options)
| ExecuteAggregation (databaseName collection : string) (pipeline : option (list json))
| UnknownQueryType (message : string).

Definition dispatch (databaseName : string) (generatedQuery : GeneratedQuery) : dbCall :=
  if String.eqb (q_type generatedQuery) "count"
  then GetCollectionCount databaseName (q_collection generatedQuery)
  else if String.eqb (q_type generatedQuery) "find"
  then ExecuteReadQuery databaseName (q_collection generatedQuery)
         (q_query generatedQuery) (q_options generatedQuery)
  else if String.eqb (q_type generatedQuery) "aggregate"
  then ExecuteAggregation databaseName (q_collection generatedQuery)
         (q_pipeline generatedQuery)
  else UnknownQueryType ("Unknown query type: " +:+ q_type generatedQuery).


End AIService.

Module ProjectModel.

(** [needsSchemaRefresh()], at time [now], for a cache last synced at
    [lastSynced] (absent when there is no cache): older than 30 minutes. *)
Definition needsSchemaRefresh (now : Z) (lastSynced : option Z) : bool :=
  match lastSynced with
  | None => true
  | Some t => t <? now - 30 * 60 * 1000
  end.

(** The [connectionStatus] virtual. *)
Definition connectionStatus (now : Z) (lastSynced : option Z) : string :=
  match lastSynced with
  | None => "disconnected"
  | Some t => if now - 5 * 60 * 1000 <? t then "connected" else "idle"
  end.

End ProjectModel.

(** ** Statements about the schema extractor and the pool *)

Module ExtraSpec.
Import JS SchemaService ConnectionPool.

(** The tags [getFieldType] gives, and the one a conflict gives. *)
Definition typeTags : list string :=
  [ "null"; "undefined"; "array"; "date"; "objectId"; "object";
    "boolean"; "number"; "string"; "mixed" ].

(** A later value leaves the type alone: it has that type, or is null. *)
Definition agrees (type : string) (v : value) : bool :=
  String.eqb (getFieldType v) type || String.eqb (getFieldType v) "null".


(** What holds of every pool that operations build from the empty one:
    pooled clients are open, were created by the manager, and belong to one
    entry only; closed clients were created by the manager. *)
Definition sound (m : Manager) : Prop :=
  (forall k pool, pools m !! k = Some pool ->
                  (e_client pool ∉ closed m) /\ (e_client pool < created m)%nat)
  /\ (forall c, c ∈ closed m -> (c < created m)%nat)
  /\ (forall k k' pool pool', pools m !! k = Some pool -> pools m !! k' = Some pool' ->
                              e_client pool = e_client pool' -> k = k').

(** The acquisitions among some events that find the entry of a pool key:
    those of a connection string, not empty, with that key. *)
Definition acquires (key : string) (ev : event) : bool :=
  match ev with
  | Acquire cs _ _ =>
      negb (String.eqb cs EmptyString) && String.eqb (hashConnectionString cs) key
  | _ => false
  end.

Definition acquisitions (key : string) (evs : list event) : nat :=
  length (List.filter (acquires key) evs).

End ExtraSpec.

(* ===================================================================== *)
(** * Properties of the query compiler and its validation gate *)
(* ===================================================================== *)

Section CompilerProperties.
Import JS QueryGenerator Spec Samples.

Lemma existsb_eqb_In (x : string) (l : list string) :
  existsb (String.eqb x) l = true <-> In x l.
Proof.
  rewrite existsb_exists. split.
  - intros (y & Hy & Heq). apply String.eqb_eq in Heq. now subst.
  - intros H. exists x. split; [assumption | apply String.eqb_refl].
Qed.

Lemma includesAny_spec (s : string) (tokens : list string) :
  includesAny s tokens = true <-> exists t, In t tokens /\ includes s t = true.
Proof. unfold includesAny. apply existsb_exists. Qed.

Lemma typeErrors_nil (q : GeneratedQuery) : typeErrors q = [] <-> ~ typeRejected q.
Proof.
  unfold typeErrors, typeRejected.
  destruct (existsb (String.eqb (q_type q)) readOnlyTypes) eqn:E.
  - apply existsb_eqb_In in E. split; [tauto | reflexivity].
  - split; [discriminate |]. intros H. exfalso. apply H. intros Hin.
    apply existsb_eqb_In in Hin. congruence.
Qed.

Lemma queryErrors_nil (q : GeneratedQuery) : queryErrors q = [] <-> ~ queryRejected q.
Proof.
  unfold queryErrors, queryRejected.
  destruct (q_query q) as [j|].
  - destruct (truthy j) eqn:Et, (includesAny (stringify j) queryTokens) eqn:Ei;
      cbn [andb].
    + split; [intros HH; discriminate HH |]. intros H. exfalso. apply H. exists j.
      apply includesAny_spec in Ei. auto.
    + split; [| reflexivity]. intros _ (j' & Hj & _ & Ht).
      injection Hj as <-. apply includesAny_spec in Ht. congruence.
    + split; [| reflexivity]. intros _ (j' & Hj & Ht & _). congruence.
    + split; [| reflexivity]. intros _ (j' & Hj & Ht & _). congruence.
  - split; [| reflexivity]. intros _ (j' & Hj & _). discriminate.
Qed.

Lemma pipelineErrors_nil (q : GeneratedQuery) :
  pipelineErrors q = [] <-> ~ pipelineRejected q.
Proof.
  unfold pipelineErrors, pipelineRejected.
  destruct (q_pipeline q) as [p|].
  - destruct (includesAny (stringify (JArr p)) pipelineTokens) eqn:Ei.
    + split; [intros HH; discriminate HH |]. intros H. exfalso. apply H. exists p.
      apply includesAny_spec in Ei. auto.
    + split; [| reflexivity]. intros _ (p' & Hp & Ht).
      injection Hp as <-. apply includesAny_spec in Ht. congruence.
  - split; [| reflexivity]. intros _ (p' & Hp & _). discriminate.
Qed.

Lemma validateQuery_valid (q : GeneratedQuery) :
  fst (validateQuery q) = true <->
  ~ typeRejected q /\ ~ queryRejected q /\ ~ pipelineRejected q.
Proof.
  rewrite <- typeErrors_nil, <- queryErrors_nil, <- pipelineErrors_nil.
  unfold validateQuery. simpl.
  destruct (typeErrors q), (queryErrors q), (pipelineErrors q); simpl;
    intuition (discriminate || reflexivity).
Qed.

(** What [generateQuery] does once the collection is resolved: compile by
    type, then let the gate decide. *)
Lemma generateQuery_resolved intent schemaCache collection :
  resolves intent schemaCache collection ->
  generateQuery intent schemaCache =
  withValidation
    match i_type intent with
    | TCount => generateCountQuery intent collection
    | TAggregate => generateAggregateQuery intent collection
    | _ => generateFindQuery intent collection
    end.
Proof.
  intros (name & Hc & Hne & Hf). unfold generateQuery. rewrite Hc.
  destruct (String.eqb name EmptyString) eqn:E.
  - apply String.eqb_eq in E. contradiction.
  - rewrite Hf. destruct (i_type intent); reflexivity.
Qed.

Lemma typeErrors_cons (q : GeneratedQuery) : typeErrors q <> [] -> typeRejected q.
Proof.
  unfold typeErrors, typeRejected.
  destruct (existsb (String.eqb (q_type q)) readOnlyTypes) eqn:E; [congruence |].
  intros _ Hin. apply existsb_eqb_In in Hin. congruence.
Qed.

Lemma queryErrors_cons (q : GeneratedQuery) : queryErrors q <> [] -> queryRejected q.
Proof.
  unfold queryErrors, queryRejected.
  destruct (q_query q) as [j|]; [| congruence].
  destruct (truthy j) eqn:Et, (includesAny (stringify j) queryTokens) eqn:Ei;
    cbn [andb]; try congruence.
  intros _. exists j. apply includesAny_spec in Ei. auto.
Qed.

Lemma pipelineErrors_cons (q : GeneratedQuery) :
  pipelineErrors q <> [] -> pipelineRejected q.
Proof.
  unfold pipelineErrors, pipelineRejected.
  destruct (q_pipeline q) as [p|]; [| congruence].
  destruct (includesAny (stringify (JArr p)) pipelineTokens) eqn:Ei; [| congruence].
  intros _. exists p. apply includesAny_spec in Ei. auto.
Qed.

(** The verdict installed by [generateQuery] is the gate's verdict on the
    query it compiled, whatever [isValid] the compilation had set. *)
Lemma generateQuery_isValid intent schemaCache collection :
  resolves intent schemaCache collection ->
  isValid (generateQuery intent schemaCache)
  = fst (validateQuery (generateQuery intent schemaCache)).
Proof.
  intros H. rewrite (generateQuery_resolved _ _ _ H).
  destruct (i_type intent); reflexivity.
Qed.

(** Either the intent names a collection of the snapshot, or the result is
    invalid from the start. *)
Lemma generateQuery_cases intent schemaCache :
  (exists collection, resolves intent schemaCache collection)
  \/ isValid (generateQuery intent schemaCache) = false.
Proof.
  unfold generateQuery, resolves.
  destruct (i_collection intent) as [name|]; [| now right].
  destruct (String.eqb_spec name EmptyString) as [-> | Hne]; [now right |].
  destruct (findCollection name schemaCache) as [collection|] eqn:E; [| now right].
  left. exists collection, name. auto.
Qed.

(** C1 (as amended).  The gate of [validateQuery] answers [isValid = false]
    exactly when the query's type is not one of count, find and aggregate, or
    its query object is present (and truthy) and its serialization contains
    one of $set, $unset, $push, $pull, $inc, $rename, or its pipeline is
    present and its serialization contains one of $out, $merge, $set,
    $unset; and whatever [generateQuery] returns is invalid whenever one of
    these three conditions holds of it.  The pipeline is not searched for
    $push, $pull, $inc or $rename. *)
Theorem validation_gate_rejects_exactly intent schemaCache (q : GeneratedQuery) :
  (fst (validateQuery q) = false <->
   typeRejected q \/ queryRejected q \/ pipelineRejected q)
  /\ let compiled := generateQuery intent schemaCache in
     (typeRejected compiled \/ queryRejected compiled \/ pipelineRejected compiled ->
      isValid compiled = false).
Proof.
  assert (Hback : forall q', typeRejected q' \/ queryRejected q' \/ pipelineRejected q' ->
                             fst (validateQuery q') = false).
  { intros q' H. destruct (fst (validateQuery q')) eqn:E; [| reflexivity].
    apply validateQuery_valid in E. tauto. }
  split; [split |].
  - intros Hinv.
    destruct (typeErrors q) eqn:Et.
    + destruct (queryErrors q) eqn:Eq.
      * destruct (pipelineErrors q) eqn:Ep.
        -- unfold validateQuery in Hinv. rewrite Et, Eq, Ep in Hinv. discriminate.
        -- right; right. apply pipelineErrors_cons. congruence.
      * right; left. apply queryErrors_cons. congruence.
    + left. apply typeErrors_cons. congruence.
  - apply Hback.
  - intros compiled H.
    destruct (generateQuery_cases intent schemaCache) as [(collection & Hres) | Hinv];
      [| exact Hinv].
    unfold compiled. rewrite (generateQuery_isValid _ _ _ Hres). now apply Hback.
Qed.

(** C1, counterexample.  The message below is parsed and compiled into an
    aggregate whose pipeline contains the token $push, and the gate lets it
    through. *)
Lemma pipeline_with_push_passes :
  let q := generateQuery (parseIntent "aggregate users where name is $push" usersSnapshot)
                         usersSnapshot in
  q_type q = "aggregate"
  /\ q_pipeline q = Some [ JObj [("$match", JObj [("name", JStr "$push")])];
                           JObj [("$limit", JNum 100)] ]
  /\ includes (stringify (JArr [ JObj [("$match", JObj [("name", JStr "$push")])];
                                 JObj [("$limit", JNum 100)] ])) "$push" = true
  /\ isValid q = true.
Proof. vm_compute. repeat split; reflexivity. Qed.

(** The same holds when $push is an operator key of the pipeline. *)
Lemma pipeline_with_push_key_passes :
  fst (validateQuery
         {| q_type := "aggregate"; q_collection := "users"; q_query := None;
            q_pipeline := Some [ JObj [("$group",
                                        JObj [("_id", JStr "$name");
                                              ("all", JObj [("$push", JStr "$payload")])])] ];
            q_options := None; isValid := true; validationErrors := [] |}) = true.
Proof. vm_compute. reflexivity. Qed.

(** ** Unresolved collections *)

Lemma findCollection_None name schemaCache :
  (forall c, In c (cacheCollections schemaCache) -> c_name c <> name) ->
  findCollection name schemaCache = None.
Proof.
  intros H. unfold findCollection.
  destruct (List.find _ _) as [c|] eqn:E; [| reflexivity].
  apply List.find_some in E as [Hin Heq]. apply String.eqb_eq in Heq.
  exfalso. exact (H c Hin Heq).
Qed.

(** C8.  When the intent names no collection, or names one that no
    collection of the snapshot bears, [generateQuery] returns an invalid
    result with an error message, the empty query object and no pipeline. *)
Theorem generateQuery_unresolved intent schemaCache :
  (i_collection intent = None
   \/ exists name, i_collection intent = Some name
                   /\ forall c, In c (cacheCollections schemaCache) -> c_name c <> name) ->
  let q := generateQuery intent schemaCache in
  isValid q = false /\ validationErrors q <> [] /\ q_query q = Some (JObj [])
  /\ q_pipeline q = None.
Proof.
  intros H. unfold generateQuery.
  destruct H as [Hn | (name & Hs & Habs)].
  - rewrite Hn. cbn. repeat split; congruence.
  - rewrite Hs. destruct (String.eqb name EmptyString).
    + cbn. repeat split; congruence.
    + rewrite (findCollection_None _ _ Habs). cbn. repeat split; congruence.
Qed.

Lemma generateQuery_unresolved_witness :
  let q := generateQuery ordersIntent usersSnapshot in
  isValid q = false /\ validationErrors q <> [] /\ q_query q = Some (JObj [])
  /\ q_pipeline q = None.
Proof.
  apply (generateQuery_unresolved ordersIntent usersSnapshot).
  right. exists "orders". split; [reflexivity |].
  intros c [<- | []]. cbn. discriminate.
Defined.

(** ** The default projection and the limit *)

Lemma getOwn_Some_In (o : obj) k v : getOwn o k = Some v -> In k (keys o).
Proof.
  induction o as [| [k' v'] r IH]; cbn; [discriminate |].
  destruct (String.eqb k' k) eqn:E.
  - apply String.eqb_eq in E. auto.
  - auto.
Qed.

Lemma getOwn_None_notIn (o : obj) k : getOwn o k = None -> ~ In k (keys o).
Proof.
  induction o as [| [k' v'] r IH]; cbn; [tauto |].
  destruct (String.eqb k' k) eqn:E; [discriminate |].
  apply String.eqb_neq in E. intros H [-> | Hin]; tauto.
Qed.

Lemma keys_replaceOwn (o : obj) k v : keys (replaceOwn o k v) = keys o.
Proof.
  induction o as [| [k' v'] r IH]; cbn; [reflexivity |].
  destruct (String.eqb k' k); cbn; [reflexivity | now f_equal].
Qed.

Lemma In_replaceOwn (o : obj) k v k' v' :
  In (k', v') (replaceOwn o k v) -> In (k', v') o \/ v' = v.
Proof.
  induction o as [| [k0 v0] r IH]; cbn; [tauto |].
  destruct (String.eqb k0 k); cbn.
  - intros [H | H]; [right; congruence | auto].
  - intros [H | H]; [auto | destruct (IH H); auto].
Qed.

Lemma In_insertIndexed i k v (o : obj) kv :
  In kv (insertIndexed i k v o) <-> kv = (k, v) \/ In kv o.
Proof.
  induction o as [| [k0 v0] r IH]; cbn.
  - intuition congruence.
  - destruct (arrayIndex k0) as [i'|]; [destruct (i' <? i)%N |]; cbn;
      rewrite ?IH; intuition congruence.
Qed.

Lemma In_keys_setProp (o : obj) k v k' :
  In k' (keys (setProp o k v)) <->
  In k' (keys o) \/ (k' = k /\ k <> "__proto__").
Proof.
  unfold setProp. destruct (String.eqb k "__proto__") eqn:Ep.
  - apply String.eqb_eq in Ep. intuition congruence.
  - apply String.eqb_neq in Ep.
    destruct (getOwn o k) eqn:Eg.
    + rewrite keys_replaceOwn. apply getOwn_Some_In in Eg. intuition congruence.
    + destruct (arrayIndex k) as [i|].
      * unfold keys. rewrite !in_map_iff. split.
        -- intros ([k0 v0] & <- & Hin). apply In_insertIndexed in Hin as [Heq | Hin].
           ++ injection Heq as -> ->. auto.
           ++ left. exists (k0, v0). auto.
        -- intros [([k0 v0] & <- & Hin) | [-> _]].
           ++ exists (k0, v0). split; [reflexivity |]. apply In_insertIndexed. auto.
           ++ exists (k, v). split; [reflexivity |]. apply In_insertIndexed. auto.
      * unfold keys. rewrite List.map_app, in_app_iff. cbn. intuition congruence.
Qed.

Lemma In_setProp (o : obj) k v k' v' :
  In (k', v') (setProp o k v) -> In (k', v') o \/ v' = v.
Proof.
  unfold setProp. destruct (String.eqb k "__proto__"); [auto |].
  destruct (getOwn o k).
  - apply In_replaceOwn.
  - destruct (arrayIndex k).
    + intros H. apply In_insertIndexed in H as [H | H]; [right; congruence | auto].
    + rewrite in_app_iff. cbn. intuition congruence.
Qed.

Lemma In_keys_projection_from (names : list string) (acc : obj) k :
  In k (keys (fold_left (fun projection name => setProp projection name (JNum 1)) names acc))
  <-> In k (keys acc) \/ (In k names /\ k <> "__proto__").
Proof.
  revert acc. induction names as [| n r IH]; intros acc; cbn.
  - tauto.
  - rewrite IH, In_keys_setProp. intuition congruence.
Qed.

Lemma In_keys_projectionOf (names : list string) k :
  In k (keys (projectionOf names)) <-> In k names /\ k <> "__proto__".
Proof.
  unfold projectionOf. rewrite In_keys_projection_from. cbn. tauto.
Qed.

Lemma projection_values_from (names : list string) (acc : obj) :
  (forall k v, In (k, v) acc -> v = JNum 1) ->
  forall k v,
    In (k, v) (fold_left (fun projection name => setProp projection name (JNum 1)) names acc)
    -> v = JNum 1.
Proof.
  revert acc. induction names as [| n r IH]; intros acc Hacc k v; cbn.
  - apply Hacc.
  - apply IH. intros k' v' Hin. apply In_setProp in Hin as [Hin | ->]; eauto.
Qed.

Lemma projectionOf_values (names : list string) k v :
  In (k, v) (projectionOf names) -> v = JNum 1.
Proof. apply projection_values_from. intros ? ? []. Qed.

Lemma take_filter_length {A} (p : A -> bool) (l : list A) n :
  (length (take n (List.filter p l)) <= n)%nat.
Proof. rewrite length_take. lia. Qed.

(** C5 (as amended).  For a find intent that requests no fields, on a
    collection of the snapshot, the default projection shows the first 8
    fields of the schema whose type is neither Buffer nor Binary and whose
    name is not _id, whatever else their type is (mixed included), provided
    none of these is named __proto__, and is absent when there is no such
    field; options.limit is the intent's limit when that is present and not
    zero, and 10 when the intent has none. *)
Theorem default_projection_and_limit intent schemaCache collection :
  resolves intent schemaCache collection ->
  i_type intent = TFind ->
  (i_fields intent = None \/ i_fields intent = Some []) ->
  ~ In "__proto__" (List.map f_name (take 8 (List.filter eligible (c_fields collection)))) ->
  let chosen := take 8 (List.filter eligible (c_fields collection)) in
  exists options,
    q_options (generateQuery intent schemaCache) = Some options
    /\ (length chosen <= 8)%nat
    /\ (chosen = [] -> o_projection options = None)
    /\ (chosen <> [] ->
        exists projection,
          o_projection options = Some projection
          /\ (forall k, In k (keys projection) <-> In k (List.map f_name chosen))
          /\ (forall k v, In (k, v) projection -> v = JNum 1))
    /\ (forall n, i_limit intent = Some n -> n <> 0 -> o_limit options = n)
    /\ (i_limit intent = None -> o_limit options = 10).
Proof.
  intros Hres Hty Hfields Hproto chosen.
  rewrite (generateQuery_resolved _ _ _ Hres), Hty.
  unfold withValidation, generateFindQuery. cbn [q_options].
  eexists. split; [reflexivity |]. cbn [o_projection o_limit].
  assert (Hproj :
    match i_fields intent with
    | Some (f :: fs) => Some (projectionOf (f :: fs))
    | _ => if nonEmpty (defaultProjectionFields collection)
           then Some (projectionOf (List.map f_name (defaultProjectionFields collection)))
           else None
    end
    = if nonEmpty chosen then Some (projectionOf (List.map f_name chosen)) else None).
  { destruct Hfields as [-> | ->]; reflexivity. }
  rewrite Hproj. clear Hproj.
  split; [apply take_filter_length |]. split; [| split; [| split]].
  - intros ->. reflexivity.
  - intros Hne. fold chosen in Hproto.
    destruct chosen as [| f r] eqn:E; [congruence |]. cbn [nonEmpty].
    eexists. split; [reflexivity |]. split.
    + intros k. rewrite In_keys_projectionOf. split; [tauto |].
      intros Hin. split; [exact Hin |]. intros ->. exact (Hproto Hin).
    + intros k v. apply projectionOf_values.
  - intros n -> Hn. cbn. destruct (n =? 0) eqn:E; [lia | reflexivity].
  - intros ->. reflexivity.
Qed.

Lemma default_projection_and_limit_witness :
  exists options,
    q_options (generateQuery (browseIntent (Some 25)) usersSnapshot) = Some options
    /\ (exists projection,
          o_projection options = Some projection
          /\ (forall k, In k (keys projection) <-> In k ["name"; "payload"]))
    /\ o_limit options = 25.
Proof.
  destruct (default_projection_and_limit (browseIntent (Some 25)) usersSnapshot
              {| c_name := "users";
                 c_fields := [ mkField "_id" "objectId" true false false;
                               mkField "name" "string" true false false;
                               mkField "payload" "mixed" true false false;
                               mkField "avatar" "Binary" false false false ];
                 c_documentCount := 42 |})
    as (options & Hq & _ & _ & Hp & Hl & _).
  - exists "users". split; [reflexivity |]. split; [discriminate | reflexivity].
  - reflexivity.
  - right. reflexivity.
  - cbn. intros [H | [H | []]]; discriminate H.
  - exists options. split; [exact Hq |]. split.
    + destruct Hp as (projection & Ho & Hk & _); [discriminate |].
      exists projection. split; [exact Ho | exact Hk].
    + apply Hl; [reflexivity | lia].
Defined.

(** C5, counterexample.  The field [payload] of the snapshot has type mixed
    and is part of the default projection. *)
Lemma default_projection_keeps_mixed :
  In (mkField "payload" "mixed" true false false)
     (c_fields {| c_name := "users";
                  c_fields := [ mkField "_id" "objectId" true false false;
                                mkField "name" "string" true false false;
                                mkField "payload" "mixed" true false false;
                                mkField "avatar" "Binary" false false false ];
                  c_documentCount := 42 |})
  /\ q_options (generateQuery (browseIntent None) usersSnapshot)
     = Some {| o_projection := Some [("name", JNum 1); ("payload", JNum 1)];
               o_limit := 10 |}.
Proof. split; [cbn; tauto | vm_compute; reflexivity]. Qed.

(** A field named [__proto__] is outside the statement above: assigning the
    number 1 to that name adds no key to a plain object, so the projection
    is there but does not show the field. *)
Lemma proto_field_is_not_projected :
  let snapshot :=
    Some [ {| c_name := "users";
              c_fields := [ mkField "__proto__" "string" true false false ];
              c_documentCount := 1 |} ] in
  o_projection <$> q_options (generateQuery (browseIntent None) snapshot) = Some (Some []).
Proof. vm_compute. reflexivity. Qed.

(** A limit of zero counts as no limit at all. *)
Lemma zero_limit_gives_default :
  o_limit <$> q_options (generateQuery (browseIntent (Some 0)) usersSnapshot) = Some 10.
Proof. vm_compute. reflexivity. Qed.

End CompilerProperties.

(* ===================================================================== *)
(** * Properties of the intent parser *)
(* ===================================================================== *)

Section ParserProperties.
Import JS QueryGenerator Spec Samples.

(** The score depends on its arguments only through the emptiness of the
    two collections it is given. *)
Lemma calculateConfidence_shape type collections filters :
  calculateConfidence type collections filters
  = calculateConfidence type
      (if nonEmpty collections then ["c"] else [])
      (if nonEmpty (keys filters) then [("k", JNull)] else []).
Proof. destruct collections, filters as [| [k v] r]; reflexivity. Qed.

Lemma bonuses_shape type collections filters :
  bonuses type collections filters
  = bonuses type
      (if nonEmpty collections then ["c"] else [])
      (if nonEmpty (keys filters) then [("k", JNull)] else []).
Proof. destruct collections, filters as [| [k v] r]; reflexivity. Qed.

(** Whatever the message and the snapshot, the score of the parsed intent
    lies between the base 0.5 and 1. *)
Lemma parseIntent_confidence_range message schemaCache :
  let c := i_confidence (parseIntent message schemaCache) in
  PrimFloat.leb 0.5 c = true /\ PrimFloat.leb c 1 = true.
Proof.
  cbn [parseIntent i_confidence]. rewrite calculateConfidence_shape.
  destruct (nonEmpty (mentionedCollections _ _)), (nonEmpty (keys _)), (detectType _);
    vm_compute; split; reflexivity.
Qed.

(** C7 (as amended).  The confidence score lies in [0,1]; it is the sum,
    taken in this order, of 0.5, of 0.3 when a collection was mentioned, of
    0.15 when a filter was extracted and of 0.15 when the type is not
    general, with a further 0.2 clamped to 1 when the type is find and a
    collection was mentioned, the total clamped to 1; and it does not
    decrease when the satisfied bonus conditions grow: an intent that
    satisfies every condition another satisfies, or that satisfies strictly
    more conditions than the other, scores at least as much.  The
    arithmetic is that of IEEE doubles. *)
Theorem confidence_in_range_additive_monotone
  type collections filters type' collections' filters' :
  bonusesIncluded (bonuses type collections filters)
                  (bonuses type' collections' filters') = true
  \/ (bonusCount (bonuses type collections filters)
      < bonusCount (bonuses type' collections' filters'))%nat ->
  let c := calculateConfidence type collections filters in
  let c' := calculateConfidence type' collections' filters' in
  (PrimFloat.leb 0 c = true /\ PrimFloat.leb c 1 = true)
  /\ c = confidenceSum (bonuses type collections filters)
  /\ PrimFloat.leb c c' = true.
Proof.
  rewrite (calculateConfidence_shape type), (calculateConfidence_shape type'),
    (bonuses_shape type), (bonuses_shape type').
  destruct (nonEmpty collections), (nonEmpty (keys filters)),
    (nonEmpty collections'), (nonEmpty (keys filters')), type, type';
    vm_compute; intros [H | H];
    first [ discriminate H
          | repeat split; reflexivity
          | exfalso; repeat (apply le_S_n in H); inversion H ].
Qed.

Lemma confidence_in_range_additive_monotone_witness :
  let c := calculateConfidence TGeneral [] [("status", JStr "active")] in
  let c' := calculateConfidence TFind ["users"] [("status", JStr "active")] in
  (PrimFloat.leb 0 c = true /\ PrimFloat.leb c 1 = true)
  /\ c = confidenceSum (bonuses TGeneral [] [("status", JStr "active")])
  /\ PrimFloat.leb c c' = true.
Proof.
  apply (confidence_in_range_additive_monotone
           TGeneral [] [("status", JStr "active")]
           TFind ["users"] [("status", JStr "active")]).
  left. reflexivity.
Defined.

(** C7, counterexample.  The score is not monotone in the number of
    satisfied conditions: an intent with a mentioned collection and one with
    an extracted filter satisfy one condition each, and the first scores
    0.8, the second 0.65. *)
Lemma confidence_not_a_function_of_count :
  (bonusCount (bonuses TGeneral ["users"] [])
   <= bonusCount (bonuses TGeneral [] [("status", JStr "active")]))%nat
  /\ calculateConfidence TGeneral ["users"] [] = 0.8%float
  /\ calculateConfidence TGeneral [] [("status", JStr "active")] = 0.65%float
  /\ PrimFloat.leb (calculateConfidence TGeneral ["users"] [])
                   (calculateConfidence TGeneral [] [("status", JStr "active")]) = false.
Proof. vm_compute. repeat split; reflexivity || lia. Qed.

(** The score by cases, as the doubles the additions give. *)
Lemma confidence_table (name : string) (names : list string) :
  let some := name :: names in
  let filter := [("status", JStr "active")] in
  calculateConfidence TGeneral [] [] = 0.5%float
  /\ calculateConfidence TGeneral [] filter = 0.65%float
  /\ calculateConfidence TGeneral some [] = 0.8%float
  /\ calculateConfidence TGeneral some filter = (0.8 + 0.15)%float
  /\ calculateConfidence TCount [] [] = 0.65%float
  /\ calculateConfidence TCount [] filter = 0.8%float
  /\ calculateConfidence TCount some [] = (0.8 + 0.15)%float
  /\ calculateConfidence TCount some filter = 1%float
  /\ calculateConfidence TFind [] [] = 0.65%float
  /\ calculateConfidence TFind [] filter = 0.8%float
  /\ calculateConfidence TFind some [] = 1%float
  /\ calculateConfidence TFind some filter = 1%float.
Proof. cbv zeta. vm_compute. repeat split; reflexivity. Qed.

(** The scenario of the design document: a count question on a known
    collection. *)
Lemma how_many_users :
  let intent := parseIntent "how many users are there" usersSnapshot in
  i_type intent = TCount /\ i_collection intent = Some "users"
  /\ PrimFloat.leb 0.8 (i_confidence intent) = true
  /\ generateQuery intent usersSnapshot
     = {| q_type := "count"; q_collection := "users"; q_query := Some (JObj []);
          q_pipeline := None; q_options := None; isValid := true;
          validationErrors := [] |}.
Proof. vm_compute. repeat split; reflexivity. Qed.

End ParserProperties.

(* ===================================================================== *)
(** * Properties of the connection pool *)
(* ===================================================================== *)

Section PoolProperties.
Import JS ConnectionPool.

Lemma evictable_spec now pool :
  evictable now pool = true <->
  CONNECTION_POOL_IDLE < now - lastUsed pool /\ refCount pool = 0.
Proof. unfold evictable. rewrite andb_true_iff, Z.ltb_lt, Z.eqb_eq. tauto. Qed.

Lemma sweep_lookup now m k :
  pools (sweep now m) !! k
  = match pools m !! k with
    | Some pool => if evictable now pool then None else Some pool
    | None => None
    end.
Proof.
  cbn [sweep pools]. destruct (pools m !! k) as [pool|] eqn:E.
  - destruct (evictable now pool) eqn:Ev.
    + apply map_lookup_filter_None. right. intros x Hx. cbn. congruence.
    + apply map_lookup_filter_Some. split; [exact E | exact Ev].
  - apply map_lookup_filter_None. left. exact E.
Qed.

Lemma sweep_closed now m c :
  c ∈ closed (sweep now m) <->
  c ∈ closed m
  \/ exists k pool, pools m !! k = Some pool /\ e_client pool = c
                    /\ evictable now pool = true.
Proof.
  cbn [sweep closed]. rewrite elem_of_union, elem_of_list_to_set, list_elem_of_In, in_map_iff.
  split.
  - intros [H | ([k pool] & Hc & Hin)]; [auto |]. right.
    apply list_elem_of_In, elem_of_map_to_list, map_lookup_filter_Some in Hin as [Hl Hev].
    exists k, pool. auto.
  - intros [H | (k & pool & Hl & Hc & Hev)]; [auto |]. right.
    exists (k, pool). split; [exact Hc |].
    apply list_elem_of_In, elem_of_map_to_list, map_lookup_filter_Some. auto.
Qed.

Lemma In_insertByClient (kv x : string * PoolEntry) l :
  In x (insertByClient kv l) <-> x = kv \/ In x l.
Proof.
  induction l as [| y r IH]; cbn [insertByClient].
  - cbn. intuition congruence.
  - destruct (e_client (snd kv) <=? e_client (snd y))%nat; cbn [In].
    + intuition congruence.
    + rewrite IH. intuition congruence.
Qed.

Lemma In_entries m k pool : In (k, pool) (entries m) <-> pools m !! k = Some pool.
Proof.
  unfold entries. rewrite <- elem_of_map_to_list, list_elem_of_In.
  induction (map_to_list (pools m)) as [| y r IH]; cbn [fold_right In]; [tauto |].
  rewrite In_insertByClient, IH. intuition congruence.
Qed.

Lemma closeEach_closed closes l acc c :
  c ∈ snd (closeEach closes l acc) ->
  c ∈ acc \/ exists kv, In kv l /\ e_client (snd kv) = c.
Proof.
  revert acc. induction l as [| kv r IH]; intros acc; cbn [closeEach]; [auto |].
  destruct (closes (e_client (snd kv))); cbn [snd].
  - intros H. apply IH in H as [H | (x & Hx & Hc)].
    + apply elem_of_union in H as [H | H]; [auto |].
      apply elem_of_singleton in H. right. exists kv. split; [now left | auto].
    + right. exists x. split; [now right | exact Hc].
  - intros H. apply elem_of_union in H as [H | H]; [auto |].
    apply elem_of_singleton in H. right. exists kv. split; [now left | auto].
Qed.

Lemma closeEach_keeps closes l acc c :
  c ∈ acc -> c ∈ snd (closeEach closes l acc).
Proof.
  revert acc. induction l as [| kv r IH]; intros acc H; cbn [closeEach]; [exact H |].
  destruct (closes (e_client (snd kv))); cbn [snd].
  - apply IH. apply elem_of_union. now left.
  - apply elem_of_union. now left.
Qed.

Lemma closeEach_resolves closes l acc :
  (forall kv, In kv l -> closes (e_client (snd kv)) = true) ->
  fst (closeEach closes l acc) = true
  /\ forall kv, In kv l -> e_client (snd kv) ∈ snd (closeEach closes l acc).
Proof.
  revert acc. induction l as [| kv r IH]; intros acc Hall; cbn [closeEach].
  - split; [reflexivity | intros ? []].
  - rewrite (Hall kv) by now left.
    destruct (IH (acc ∪ {[ e_client (snd kv) ]})) as [Hf Hin].
    { intros x Hx. apply Hall. now right. }
    split; [exact Hf |]. intros x [<- | Hx]; [| now apply Hin].
    apply closeEach_keeps. apply elem_of_union. right. now apply elem_of_singleton.
Qed.


(** A [closeAll] none of whose [close()] calls rejects empties the pool,
    stops the timer and closes the client of every entry. *)
Lemma closeAll_resolved closes m :
  (forall k pool, pools m !! k = Some pool -> closes (e_client pool) = true) ->
  fst (closeAll closes m) = true
  /\ pools (snd (closeAll closes m)) = ∅
  /\ cleanupInterval (snd (closeAll closes m)) = false
  /\ created (snd (closeAll closes m)) = created m
  /\ forall c, c ∈ closed (snd (closeAll closes m)) <->
               c ∈ closed m \/ exists k pool, pools m !! k = Some pool /\ e_client pool = c.
Proof.
  intros Hall. unfold closeAll.
  destruct (closeEach_resolves closes (entries m) (closed m)) as [Hf Hin].
  { intros [k pool] H. apply In_entries in H. now apply (Hall k). }
  pose proof (closeEach_closed closes (entries m) (closed m)) as Hsub.
  pose proof (closeEach_keeps closes (entries m) (closed m)) as Hkeep.
  destruct (closeEach closes (entries m) (closed m)) as [[] closed']; [| discriminate].
  cbn [fst snd pools cleanupInterval created closed] in *.
  repeat split; try reflexivity.
  - intros H. apply Hsub in H as [H | ([k pool] & Hx & Hc)]; [auto |].
    right. exists k, pool. apply In_entries in Hx. auto.
  - intros [H | (k & pool & Hl & <-)]; [now apply Hkeep |].
    apply (Hin (k, pool)). now apply In_entries.
Qed.

Lemma release_lookup cs now m pool :
  pools m !! hashConnectionString cs = Some pool ->
  pools (releaseConnection cs now m) !! hashConnectionString cs
  = Some {| e_client := e_client pool; lastUsed := now; refCount := refCount pool - 1 |}
  /\ closed (releaseConnection cs now m) = closed m
  /\ forall k, k <> hashConnectionString cs ->
               pools (releaseConnection cs now m) !! k = pools m !! k.
Proof.
  intros H. unfold releaseConnection. rewrite H. cbn [pools closed].
  split; [apply lookup_insert_eq |]. split; [reflexivity |].
  intros k Hk. apply lookup_insert_ne. congruence.
Qed.

Lemma release_absent cs now m :
  pools m !! hashConnectionString cs = None -> releaseConnection cs now m = m.
Proof. intros H. unfold releaseConnection. now rewrite H. Qed.

Lemma getConnection_existing cs now connects m pool :
  cs <> EmptyString ->
  pools m !! hashConnectionString cs = Some pool ->
  fst (getConnection cs now connects m) = Client (e_client pool)
  /\ pools (snd (getConnection cs now connects m)) !! hashConnectionString cs
     = Some {| e_client := e_client pool; lastUsed := now; refCount := refCount pool + 1 |}
  /\ closed (snd (getConnection cs now connects m)) = closed m.
Proof.
  intros Hne H. unfold getConnection.
  apply String.eqb_neq in Hne. rewrite Hne, H. cbn.
  split; [reflexivity |]. split; [apply lookup_insert_eq | reflexivity].
Qed.

Lemma getConnection_fresh cs now m :
  cs <> EmptyString ->
  pools m !! hashConnectionString cs = None ->
  fst (getConnection cs now true m) = Client (created m)
  /\ pools (snd (getConnection cs now true m)) !! hashConnectionString cs
     = Some {| e_client := created m; lastUsed := now; refCount := 1 |}
  /\ closed (snd (getConnection cs now true m)) = closed m.
Proof.
  intros Hne H. unfold getConnection.
  apply String.eqb_neq in Hne. rewrite Hne, H. cbn.
  split; [reflexivity |]. split; [apply lookup_insert_eq | reflexivity].
Qed.

(** C9.  Two acquisitions in a row of a connection string the pool does not
    hold yet return the same client and leave its entry with reference
    count 2; a release lowers the reference count of the entry by one, keeps
    the entry and its client and closes nothing; and the sweep removes an
    entry exactly when its idle time exceeds the threshold and its reference
    count is zero, closes no other client than those of the entries it
    removes, and so leaves every entry with a nonzero count in place. *)
Theorem pool_acquire_release_sweep (m : Manager) (cs : string) (t1 t2 : Z)
  (connects : bool) :
  cs <> EmptyString ->
  pools m !! hashConnectionString cs = None ->
  let first := getConnection cs t1 true m in
  let second := getConnection cs t2 connects (snd first) in
  (exists c, fst first = Client c /\ fst second = Client c
             /\ pools (snd second) !! hashConnectionString cs
                = Some {| e_client := c; lastUsed := t2; refCount := 2 |})
  /\ (forall m' now pool,
        pools m' !! hashConnectionString cs = Some pool ->
        pools (releaseConnection cs now m') !! hashConnectionString cs
        = Some {| e_client := e_client pool; lastUsed := now;
                  refCount := refCount pool - 1 |}
        /\ closed (releaseConnection cs now m') = closed m')
  /\ (forall m' now k pool,
        pools m' !! k = Some pool ->
        (pools (sweep now m') !! k = None <->
         CONNECTION_POOL_IDLE < now - lastUsed pool /\ refCount pool = 0)
        /\ (refCount pool <> 0 -> pools (sweep now m') !! k = Some pool))
  /\ (forall m' now c,
        c ∈ closed (sweep now m') ->
        c ∈ closed m'
        \/ exists k pool, pools m' !! k = Some pool /\ e_client pool = c
                          /\ CONNECTION_POOL_IDLE < now - lastUsed pool
                          /\ refCount pool = 0).
Proof.
  intros Hne Hfresh first second.
  destruct (getConnection_fresh cs t1 m Hne Hfresh) as (Hc1 & Hp1 & _).
  destruct (getConnection_existing cs t2 connects (snd first) _ Hne Hp1) as (Hc2 & Hp2 & _).
  split; [| split; [| split]].
  - exists (created m). split; [exact Hc1 |]. split; [exact Hc2 | exact Hp2].
  - intros m' now pool H. destruct (release_lookup cs now m' pool H) as (? & ? & _). auto.
  - intros m' now k pool H. rewrite sweep_lookup, H.
    destruct (evictable now pool) eqn:Ev.
    + apply evictable_spec in Ev. split; [tauto | intros; lia].
    + split; [| reflexivity]. split; [discriminate |].
      intros Hev. apply evictable_spec in Hev. congruence.
  - intros m' now c H. apply sweep_closed in H as [H | (k & pool & Hl & Hc & Hev)]; [auto |].
    right. exists k, pool. apply evictable_spec in Hev. tauto.
Qed.

Lemma pool_acquire_release_sweep_witness :
  let first := getConnection "mongodb://db.example/shop" 1000 true initial in
  let second := getConnection "mongodb://db.example/shop" 2000 true (snd first) in
  exists c, fst first = Client c /\ fst second = Client c
            /\ pools (snd second) !! hashConnectionString "mongodb://db.example/shop"
               = Some {| e_client := c; lastUsed := 2000; refCount := 2 |}.
Proof.
  apply (pool_acquire_release_sweep initial "mongodb://db.example/shop" 1000 2000 true).
  - discriminate.
  - apply lookup_empty.
Defined.

(** After as many releases as acquisitions the count is back to zero, and
    the entry goes at the first sweep later than the idle threshold. *)
Lemma two_acquires_two_releases :
  let cs := "mongodb://db.example/shop" in
  let m2 := snd (getConnection cs 2000 true (snd (getConnection cs 1000 true initial))) in
  let m4 := releaseConnection cs 4000 (releaseConnection cs 3000 m2) in
  refCountOf cs m4 = Some 0
  /\ refCountOf cs (sweep (4000 + CONNECTION_POOL_IDLE) m4) = Some 0
  /\ refCountOf cs (sweep (4001 + CONNECTION_POOL_IDLE) m4) = None
  /\ elements (closed (sweep (4001 + CONNECTION_POOL_IDLE) m4)) = [0%nat].
Proof. vm_compute. repeat split; reflexivity. Qed.

End PoolProperties.

(* ===================================================================== *)
(** * Properties of filter extraction *)
(* ===================================================================== *)

Section FilterProperties.
Import JS Regex QueryGenerator.

Lemma getOwn_replaceOwn_ne (o : obj) k v k' :
  k <> k' -> getOwn (replaceOwn o k v) k' = getOwn o k'.
Proof.
  intros Hne. induction o as [| [k0 v0] r IH]; cbn; [reflexivity |].
  destruct (String.eqb k0 k) eqn:E; cbn.
  - apply String.eqb_eq in E. subst k0.
    destruct (String.eqb k k') eqn:E'; [apply String.eqb_eq in E'; contradiction | reflexivity].
  - destruct (String.eqb k0 k'); [reflexivity | exact IH].
Qed.

Lemma getOwn_insertIndexed_ne i (o : obj) k v k' :
  k <> k' -> getOwn (insertIndexed i k v o) k' = getOwn o k'.
Proof.
  intros Hne. apply String.eqb_neq in Hne.
  induction o as [| [k0 v0] r IH]; cbn.
  - now rewrite Hne.
  - destruct (arrayIndex k0) as [i'|]; [destruct (i' <? i)%N |]; cbn; rewrite ?Hne, ?IH;
      reflexivity.
Qed.

Lemma getOwn_app_ne (o : obj) k v k' :
  k <> k' -> getOwn (o ++ [(k, v)])%list k' = getOwn o k'.
Proof.
  intros Hne. apply String.eqb_neq in Hne.
  induction o as [| [k0 v0] r IH]; cbn.
  - now rewrite Hne.
  - destruct (String.eqb k0 k'); [reflexivity | exact IH].
Qed.

Lemma getOwn_setProp_ne (o : obj) k v k' :
  k <> k' -> getOwn (setProp o k v) k' = getOwn o k'.
Proof.
  intros Hne. unfold setProp. destruct (String.eqb k "__proto__"); [reflexivity |].
  destruct (getOwn o k).
  - now apply getOwn_replaceOwn_ne.
  - destruct (arrayIndex k).
    + now apply getOwn_insertIndexed_ne.
    + now apply getOwn_app_ne.
Qed.

(** What the guard of the second pass does protect: a field whose value is
    truthy comes out of the generic pass as it went in. *)
Lemma eqPass_keeps_truthy (message : string) (filters : obj) k v :
  getOwn filters k = Some v -> truthy v = true ->
  getOwn (eqPass message filters) k = Some v.
Proof.
  unfold eqPass. generalize (execAll eqPattern message) as matches.
  intros matches. revert filters.
  induction matches as [| caps rest IH]; intros filters Hk Ht; cbn; [exact Hk |].
  apply IH; [| exact Ht].
  destruct caps as [| fieldName [| fieldValue [| ? ?]]]; try exact Hk.
  destruct (propFalsy filters fieldName) eqn:Ef; [| exact Hk].
  destruct (String.eqb_spec fieldName k) as [-> | Hne].
  - unfold propFalsy in Ef. rewrite Hk, Ht in Ef. discriminate.
  - rewrite getOwn_setProp_ne; [exact Hk | exact Hne].
Qed.

(** C4, the failing input.  The first pass sets [active] to false; the
    generic pass, whose guard is [!filters[fieldName]], takes the false for
    an unset field and overwrites it with true. *)
Theorem generic_pass_overwrites_false :
  wherePass "where active is false active=true" [] = [("active", JBool false)]
  /\ extractFilters "where active is false active=true" = [("active", JBool true)].
Proof. vm_compute. split; reflexivity. Qed.

(** The same happens to a numeric 0. *)
Lemma generic_pass_overwrites_zero :
  wherePass "where stock is 0 and stock: 5" [] = [("stock", JNum 0)]
  /\ extractFilters "where stock is 0 and stock: 5" = [("stock", JNum 5)].
Proof. vm_compute. split; reflexivity. Qed.

(** A value that is neither is kept. *)
Lemma generic_pass_keeps_text :
  extractFilters "where status is active status=closed" = [("status", JStr "active")].
Proof. vm_compute. reflexivity. Qed.

(** What [Number] makes of a captured value: fractions, exponents and
    radix prefixes are numbers, a zero in any spelling is falsy and is
    overwritten like 0, and a number too large or too fine for its digits
    is printed as JavaScript prints the nearest double. *)
Lemma captured_numbers :
  parseValue "0.0" = JNum 0
  /\ parseValue "-0" = JNum 0
  /\ parseValue "1e3" = JNum 1000
  /\ parseValue "0x1F" = JNum 31
  /\ parseValue "-12" = JNum (-12)
  /\ parseValue "0.5" = JDbl 0.5
  /\ parseValue ".25e1" = JDbl 2.5
  /\ parseValue "9007199254740993" = JNum 9007199254740992
  /\ parseValue "Infinity" = JDbl infinity
  /\ parseValue "12abc" = JStr "12abc"
  /\ parseValue "1_000" = JStr "1_000"
  /\ parseValue "-0x10" = JStr "-0x10"
  /\ stringify (parseValue "0.1") = "0.1"
  /\ stringify (parseValue "123456789012345678901234567890") = "1.2345678901234568e+29"
  /\ stringify (parseValue "1152921504606846976") = "1152921504606847000"
  /\ stringify (parseValue "0.0000001") = "1e-7"
  /\ stringify (parseValue "1e400") = "null"
  /\ extractFilters "where x is 0.0 x=5" = [("x", JNum 5)].
Proof. vm_compute. repeat split; reflexivity. Qed.

(** The scenario of the design document. *)
Lemma show_orders_where_status_shipped :
  let intent := parseIntent "show orders where status = shipped limit 20" None in
  i_filters intent = Some [("status", JStr "shipped")] /\ i_limit intent = Some 20.
Proof. vm_compute. split; reflexivity. Qed.

Lemma top_5000_is_capped :
  extractLimit "show me top 5000 users" = Some 1000.
Proof. vm_compute. reflexivity. Qed.

End FilterProperties.

(* ===================================================================== *)
(** * Properties of the schema extractor *)
(* ===================================================================== *)

Section ExtractorProperties.
Import JS SchemaService.

(** Induction on sampled values, through the lists they nest. *)
Lemma value_nested_ind (P : value -> Prop) :
  P VNull -> P VUndefined -> (forall b, P (VBool b)) -> (forall z, P (VNum z)) ->
  (forall s, P (VStr s)) ->
  (forall l, Forall P l -> P (VArr l)) ->
  (forall ms, P (VDate ms)) ->
  (forall es, Forall (fun kv => P (snd kv)) es -> P (VObj es)) ->
  forall v, P v.
Proof.
  intros Hnull Hundef Hbool Hnum Hstr Harr Hdate Hobj.
  fix IH 1. intros [ | | b | z | s | l | ms | es].
  - exact Hnull.
  - exact Hundef.
  - apply Hbool.
  - apply Hnum.
  - apply Hstr.
  - apply Harr. induction l as [| x r IHl]; constructor; [apply IH | exact IHl].
  - apply Hdate.
  - apply Hobj. induction es as [| [k x] r IHl]; constructor; [apply IH | exact IHl].
Qed.

(** The traversal is the fold of [observe] over the entries it visits. *)
Lemma extract_is_fold_of_visits (obj : value) :
  forall prefix m depth,
    extractFieldsFromDocument obj prefix m depth
    = fold_left observeVisit (visits obj prefix depth) m.
Proof.
  induction obj as [ | | b | z | s | l _ | ms | es IH] using value_nested_ind;
    intros prefix m depth; try reflexivity.
  cbn [extractFieldsFromDocument visits].
  destruct (Nat.ltb 3 depth); [reflexivity |].
  revert m. induction IH as [| [key v] rest Hv _ IHrest]; intros m; [reflexivity |].
  cbn [snd] in Hv. rewrite fold_left_app. cbn [fold_left observeVisit].
  rewrite <- IHrest. f_equal.
  destruct v; try reflexivity. apply Hv.
Qed.

Lemma analyzeFieldMap_is_fold (samples : list document) :
  analyzeFieldMap samples = fold_left observeVisit (sampleVisits samples) [].
Proof.
  unfold analyzeFieldMap, sampleVisits. generalize (@nil (string * FieldSchema)) as m.
  induction samples as [| doc r IH]; intros m; [reflexivity |].
  cbn [fold_left flat_map]. rewrite fold_left_app, IH, extract_is_fold_of_visits.
  reflexivity.
Qed.

Lemma analyzeFields_of_map (samples : list document) :
  analyzeFields samples = List.map snd (analyzeFieldMap samples).
Proof. reflexivity. Qed.

(** *** Reading the field map after one observation *)

Lemma mapGet_app (m : fieldMap) p f p' :
  mapGet (m ++ [(p, f)])%list p'
  = match mapGet m p' with
    | Some g => Some g
    | None => if String.eqb p p' then Some f else None
    end.
Proof.
  induction m as [| [p0 f0] r IH]; cbn; [reflexivity |].
  destruct (String.eqb p0 p'); [reflexivity | exact IH].
Qed.

Lemma mapGet_mapUpdate (m : fieldMap) p g p' :
  mapGet (mapUpdate m p g) p'
  = if String.eqb p p' then g <$> mapGet m p' else mapGet m p'.
Proof.
  induction m as [| [p0 f0] r IH]; cbn.
  - now destruct (String.eqb p p').
  - destruct (String.eqb_spec p0 p) as [-> | Hne]; cbn.
    + destruct (String.eqb p p'); reflexivity.
    + destruct (String.eqb_spec p0 p') as [-> | Hne'].
      * destruct (String.eqb_spec p p'); [congruence | reflexivity].
      * exact IH.
Qed.

Lemma mapGet_observe (m : fieldMap) p k v p' :
  mapGet (observe m p k v) p'
  = if String.eqb p p'
    then Some match mapGet m p with
              | Some f => updateFieldSchema f v
              | None => createFieldSchema k v
              end
    else mapGet m p'.
Proof.
  unfold observe. destruct (mapGet m p) as [f|] eqn:E.
  - rewrite mapGet_mapUpdate. destruct (String.eqb_spec p p') as [<- | Hne]; [| reflexivity].
    now rewrite E.
  - rewrite mapGet_app. destruct (String.eqb_spec p p') as [<- | Hne].
    + now rewrite E.
    + now destruct (mapGet m p').
Qed.

Lemma mapGet_fold_observe (vs : list (string * string * value)) :
  forall (m : fieldMap) (p : string),
    mapGet (fold_left observeVisit vs m) p
    = match mapGet m p with
      | Some f => Some (updatedWith f (valuesAt p vs))
      | None =>
          match List.filter (fun visit => String.eqb (fst (fst visit)) p) vs with
          | [] => None
          | (_, k, v) :: later => Some (updatedWith (createFieldSchema k v) (List.map snd later))
          end
      end.
Proof.
  induction vs as [| [[p0 k0] v0] r IH]; intros m p.
  - cbn. now destruct (mapGet m p).
  - cbn [fold_left observeVisit]. rewrite IH, mapGet_observe.
    unfold valuesAt. cbn [List.filter fst snd].
    destruct (String.eqb_spec p0 p) as [-> | Hne].
    + destruct (mapGet m p); reflexivity.
    + reflexivity.
Qed.

Lemma updatedWith_required (vals : list value) :
  forall f,
    f_required (updatedWith f vals)
    = f_required f && forallb (fun v => negb (isNullish v)) vals.
Proof.
  induction vals as [| v r IH]; intros f; cbn.
  - now rewrite andb_true_r.
  - unfold updatedWith in IH. rewrite IH. cbn.
    destruct (isNullish v); cbn; [now rewrite andb_false_r | reflexivity].
Qed.

Lemma valuesAt_In (path : string) (vs : list (string * string * value)) v :
  In v (valuesAt path vs) <-> exists key, In (path, key, v) vs.
Proof.
  unfold valuesAt. rewrite in_map_iff. split.
  - intros ([[p k] w] & <- & Hin). apply filter_In in Hin as [Hin Hp].
    cbn in Hp. apply String.eqb_eq in Hp. subst p. now exists k.
  - intros (k & Hin). exists (path, k, v). split; [reflexivity |].
    apply filter_In. split; [exact Hin | apply String.eqb_refl].
Qed.

(** The value a sampled document gives to one of its own keys is among the
    values seen at that key. *)
Lemma top_level_value_seen (samples : list document) (doc : document) key v :
  In doc samples -> In (key, v) doc ->
  In v (valuesAt key (sampleVisits samples)).
Proof.
  intros Hdoc Hkv. apply valuesAt_In. exists key.
  unfold sampleVisits. apply in_flat_map. exists doc. split; [exact Hdoc |].
  cbn [visits Nat.ltb Nat.leb]. clear Hdoc.
  induction doc as [| [k0 v0] rest IH]; [destruct Hkv |].
  destruct Hkv as [[= -> ->] | Hin].
  - apply in_or_app. left. left. reflexivity.
  - apply in_or_app. right. now apply IH.
Qed.

(** A path has a schema exactly when some sampled document carries it. *)
Lemma schema_iff_seen (samples : list document) (path : string) :
  mapGet (analyzeFieldMap samples) path = None <->
  valuesAt path (sampleVisits samples) = [].
Proof.
  rewrite analyzeFieldMap_is_fold, mapGet_fold_observe. cbn [mapGet].
  unfold valuesAt.
  destruct (List.filter _ (sampleVisits samples)) as [| [[p k] v] later].
  - split; reflexivity.
  - split; discriminate.
Qed.

(** C3 (as amended).  The schema of a path has [required = true] exactly
    when no sampled document carries the path with a null or undefined
    value.  Only the documents that carry the path count (there is at least
    one): a document that lacks it leaves [required] as it is. *)
Theorem required_iff_never_null (samples : list document) (path : string)
  (field : FieldSchema) :
  mapGet (analyzeFieldMap samples) path = Some field ->
  valuesAt path (sampleVisits samples) <> []
  /\ (f_required field = true <->
      forall v, In v (valuesAt path (sampleVisits samples)) -> isNullish v = false).
Proof.
  intros Hget. split.
  { intros Hnone. apply schema_iff_seen in Hnone. congruence. }
  revert Hget.
  rewrite analyzeFieldMap_is_fold, mapGet_fold_observe. cbn [mapGet].
  unfold valuesAt.
  destruct (List.filter _ (sampleVisits samples)) as [| [[p k] v] later]; [discriminate |].
  intros [= <-]. rewrite updatedWith_required. cbn [createFieldSchema f_required].
  rewrite andb_true_iff, negb_true_iff, forallb_forall. cbn [List.map snd In].
  split.
  - intros [Hv Hall] w [<- | Hin]; [exact Hv |].
    apply negb_true_iff. now apply Hall.
  - intros H. split; [apply H; auto |].
    intros w Hin. apply negb_true_iff. apply H. auto.
Qed.

Lemma required_iff_never_null_witness :
  let samples := [ [("name", VStr "Ada"); ("email", VNull)];
                   [("name", VStr "Bob"); ("email", VStr "bob@example.org")];
                   [("name", VStr "Cy")] ] in
  let field := {| f_name := "email"; f_type := "mixed"; f_required := false;
                  f_isArray := false; f_isNested := false |} in
  mapGet (analyzeFieldMap samples) "email" = Some field
  /\ (f_required field = true <->
      forall v, In v (valuesAt "email" (sampleVisits samples)) -> isNullish v = false).
Proof.
  intros samples field.
  assert (H : mapGet (analyzeFieldMap samples) "email" = Some field)
    by (vm_compute; reflexivity).
  split; [exact H |].
  exact (proj2 (required_iff_never_null samples "email" field H)).
Defined.

(** C3, counterexample.  [email] is present and non-null in the first
    sampled document and absent from the second, and its schema still says
    [required = true]. *)
Lemma absent_field_stays_required :
  analyzeFields [ [("name", VStr "Ada"); ("email", VStr "ada@example.org")];
                  [("name", VStr "Bob")] ]
  = [ {| f_name := "name"; f_type := "string"; f_required := true;
         f_isArray := false; f_isNested := false |};
      {| f_name := "email"; f_type := "string"; f_required := true;
         f_isArray := false; f_isNested := false |} ].
Proof. vm_compute. reflexivity. Qed.

(** A field first seen in a later document is created as required as well. *)
Lemma late_field_is_required :
  mapGet (analyzeFieldMap [ [("name", VStr "Ada")];
                            [("name", VStr "Bob"); ("phone", VStr "555")] ]) "phone"
  = Some {| f_name := "phone"; f_type := "string"; f_required := true;
            f_isArray := false; f_isNested := false |}.
Proof. vm_compute. reflexivity. Qed.

(** Types in conflict across samples collapse to mixed. *)
Lemma type_conflict_is_mixed :
  f_type <$> mapGet (analyzeFieldMap [ [("age", VNum 3)]; [("age", VStr "three")] ]) "age"
  = Some "mixed".
Proof. vm_compute. reflexivity. Qed.

End ExtractorProperties.

(* ===================================================================== *)
(** * The gate is textual: tokens in keys and in values alike *)
(* ===================================================================== *)

Section TextualGate.
Import JS QueryGenerator Spec Samples.

Lemma append_cons x (a b : string) : String x a +:+ b = String x (a +:+ b).
Proof. reflexivity. Qed.

Lemma append_assoc' (a b c : string) : (a +:+ b) +:+ c = a +:+ (b +:+ c).
Proof.
  induction a as [| x a IH]; [reflexivity |]. rewrite !append_cons. now rewrite IH.
Qed.

Lemma append_nil_r (a : string) : a +:+ EmptyString = a.
Proof.
  induction a as [| x a IH]; [reflexivity |]. rewrite append_cons. now rewrite IH.
Qed.

Lemma sub_refl t : sub t t.
Proof. exists EmptyString, EmptyString. cbn. now rewrite append_nil_r. Qed.

Lemma sub_app_l t s r : sub t s -> sub t (s +:+ r).
Proof.
  intros (a & b & ->). exists a, (b +:+ r). now rewrite !append_assoc'.
Qed.

Lemma sub_app_r t s r : sub t s -> sub t (r +:+ s).
Proof.
  intros (a & b & ->). exists (r +:+ a), b. now rewrite !append_assoc'.
Qed.

Lemma sub_cons t s c : sub t s -> sub t (String c s).
Proof. apply (sub_app_r t s (String c EmptyString)). Qed.

Lemma sub_trans t s u : sub t s -> sub s u -> sub t u.
Proof.
  intros (a & b & ->) (a' & b' & ->).
  exists (a' +:+ a), (b +:+ b'). now rewrite !append_assoc'.
Qed.

Lemma startsWith_spec s p : startsWith s p = true <-> exists r, s = p +:+ r.
Proof.
  revert s. induction p as [| a p IH]; intros s; cbn.
  - split; [intros _; now exists s | reflexivity].
  - destruct s as [| b s].
    + split; [discriminate | intros (r & Hr); discriminate].
    + rewrite andb_true_iff, IH. split.
      * intros [Hab (r & ->)]. apply Ascii.eqb_eq in Hab. subst. now exists r.
      * intros (r & Hr). injection Hr as -> ->. split; [apply Ascii.eqb_refl | now exists r].
Qed.

Lemma includes_spec s t : includes s t = true <-> sub t s.
Proof.
  induction s as [| c s IH].
  - cbn. rewrite orb_false_r, startsWith_spec. split.
    + intros (r & ->). exists EmptyString, r. reflexivity.
    + intros (a & b & H). destruct a; [now exists b | discriminate].
  - cbn [includes]. rewrite orb_true_iff, IH, startsWith_spec. split.
    + intros [(r & ->) | Hs]; [exists EmptyString, r; reflexivity | now apply sub_cons].
    + intros (a & b & H). destruct a as [| x a].
      * left. now exists b.
      * right. cbn in H. injection H as -> ->. now exists a, b.
Qed.

Lemma escape_app a b : escape (a +:+ b) = escape a +:+ escape b.
Proof.
  induction a as [| x a IH]; [reflexivity |].
  rewrite append_cons. cbn [escape]. now rewrite IH, append_assoc'.
Qed.

(** A text that [JSON.stringify] prints as it is keeps its place inside
    the quoted form of any string that contains it. *)
Lemma sub_quote t s : escape t = t -> sub t s -> sub t (quote s).
Proof.
  intros Hplain (a & b & ->). unfold quote.
  apply sub_cons, sub_app_l. rewrite !escape_app, Hplain.
  now exists (escape a), (escape b).
Qed.

Lemma sub_join t sep s l : In s l -> sub t s -> sub t (join sep l).
Proof.
  induction l as [| x r IH]; intros Hin Hs; [contradiction |].
  destruct r as [| y r'].
  - destruct Hin as [-> | []]. exact Hs.
  - change (join sep (x :: y :: r')) with (x +:+ sep +:+ join sep (y :: r')).
    destruct Hin as [-> | Hin].
    + now apply sub_app_l.
    + apply sub_app_r, sub_app_r. now apply IH.
Qed.

(** An occurrence in a value shows in its serialization. *)
Lemma occurs_in_stringify t j :
  escape t = t -> occurs t j -> sub t (stringify j).
Proof.
  intros Hplain Hocc.
  induction Hocc as [s Hs | l j Hin _ IH | kvs k v Hin Hk | kvs k v Hin _ IH].
  - cbn. apply sub_quote; [exact Hplain | now apply includes_spec].
  - cbn [stringify]. apply sub_app_r, sub_app_l.
    apply (sub_join t "," (stringify j)); [now apply in_map | exact IH].
  - cbn [stringify]. apply sub_app_r, sub_app_l.
    apply (sub_join t "," (quote k +:+ ":" +:+ stringify v)).
    + apply (in_map (fun kv => quote (fst kv) +:+ ":" +:+ stringify (snd kv)) _ _ Hin).
    + apply sub_app_l, sub_quote; [exact Hplain | now apply includes_spec].
  - cbn [stringify]. apply sub_app_r, sub_app_l.
    apply (sub_join t "," (quote k +:+ ":" +:+ stringify v)).
    + apply (in_map (fun kv => quote (fst kv) +:+ ":" +:+ stringify (snd kv)) _ _ Hin).
    + apply sub_app_r, sub_app_r. exact IH.
Qed.

Lemma gateTokens_plain type t : In t (gateTokens type) -> escape t = t.
Proof.
  destruct type; cbn; intros H;
    repeat (destruct H as [<- | H]; [reflexivity |]); contradiction.
Qed.

(** C2 (as amended).  The gate is textual.  For an intent on a collection of
    the snapshot, a token of the gate's list (the query list $set, $unset,
    $push, $pull, $inc, $rename for what compiles to a count or a find, the
    pipeline list $out, $merge, $set, $unset for an aggregate) that occurs
    anywhere in the filters, in a key or inside a string value, makes the
    compiled query invalid; and a count or find is valid exactly when the
    serialized filters contain none of the six tokens of the query list. *)
Theorem token_in_filters_rejected intent schemaCache collection filters :
  resolves intent schemaCache collection ->
  i_filters intent = Some filters ->
  (forall t, In t (gateTokens (i_type intent)) -> occurs t (JObj filters) ->
             isValid (generateQuery intent schemaCache) = false)
  /\ (i_type intent <> TAggregate ->
      (isValid (generateQuery intent schemaCache) = true <->
       forall t, In t queryTokens -> includes (stringify (JObj filters)) t = false)).
Proof.
  intros Hres Hfl. split.
  - intros t Ht Hocc.
    rewrite (generateQuery_isValid _ _ _ Hres).
    destruct (fst (validateQuery (generateQuery intent schemaCache))) eqn:E;
      [| reflexivity].
    exfalso. apply validateQuery_valid in E as (_ & Hnq & Hnp). revert Hnq Hnp.
    rewrite (generateQuery_resolved _ _ _ Hres).
    pose proof (gateTokens_plain _ _ Ht) as Hplain.
    destruct (i_type intent) eqn:Ety; cbn [gateTokens] in Ht; intros Hnq Hnp.
    3: {
      apply Hnp. exists (matchStage intent ++ groupStage intent
            ++ [JObj [("$limit", JNum (limitOr (i_limit intent) 100))]])%list.
      split; [reflexivity |]. exists t. split; [exact Ht |].
      apply includes_spec, occurs_in_stringify; [exact Hplain |].
      apply (occurs_element t _ (JObj [("$match", JObj filters)])).
      - apply in_or_app. left. unfold matchStage. rewrite Hfl.
        destruct filters as [| kv r]; [| left; reflexivity].
        inversion Hocc as [ | | ? ? ? Hin | ? ? ? Hin ]; destruct Hin.
      - apply (occurs_value t _ "$match" (JObj filters)); [left; reflexivity | exact Hocc].
    }
    all: apply Hnq; exists (JObj filters);
      (split; [cbn; now rewrite Hfl |]); (split; [reflexivity |]);
      exists t; (split; [exact Ht |]);
      now apply includes_spec, occurs_in_stringify.
  - intros Hna.
    rewrite (generateQuery_isValid _ _ _ Hres), validateQuery_valid.
    rewrite (generateQuery_resolved _ _ _ Hres).
    assert (Hq : forall q,
               q_type q = "count" \/ q_type q = "find" ->
               q_query q = Some (JObj filters) -> q_pipeline q = None ->
               (~ typeRejected q /\ ~ queryRejected q /\ ~ pipelineRejected q <->
                forall t, In t queryTokens -> includes (stringify (JObj filters)) t = false)).
    { intros q Hty Hqq Hqp. split.
      - intros (_ & Hnq & _) t Ht.
        destruct (includes (stringify (JObj filters)) t) eqn:E; [| reflexivity].
        exfalso. apply Hnq. exists (JObj filters). repeat split; eauto.
      - intros Hall. split; [| split].
        + unfold typeRejected. intros H. apply H. cbn. destruct Hty as [-> | ->]; auto.
        + intros (j & Hj & _ & t & Ht & Hinc). rewrite Hqq in Hj. injection Hj as <-.
          rewrite (Hall t Ht) in Hinc. discriminate.
        + intros (p & Hp & _). congruence. }
    destruct (i_type intent); try contradiction;
      apply Hq; cbn; rewrite ?Hfl; auto.
Qed.

Lemma token_in_filters_rejected_witness :
  isValid (generateQuery (filterIntent TFind [("$set", JObj [("role", JStr "admin")])])
                         usersSnapshot) = false.
Proof.
  refine (proj1 (token_in_filters_rejected
                   (filterIntent TFind [("$set", JObj [("role", JStr "admin")])])
                   usersSnapshot
                   {| c_name := "users";
                      c_fields := [ mkField "_id" "objectId" true false false;
                                    mkField "name" "string" true false false;
                                    mkField "payload" "mixed" true false false;
                                    mkField "avatar" "Binary" false false false ];
                      c_documentCount := 42 |}
                   [("$set", JObj [("role", JStr "admin")])] _ _) "$set" _ _).
  - exists "users". split; [reflexivity |]. split; [discriminate | reflexivity].
  - reflexivity.
  - cbn. auto.
  - apply (occurs_key "$set" _ "$set" (JObj [("role", JStr "admin")])).
    + left. reflexivity.
    + reflexivity.
Defined.

(** C2, counterexample.  The token $set stands in a filter value only, as
    data, and the compiled query is rejected all the same. *)
Lemma token_in_value_is_rejected :
  let intent := parseIntent "find users where name is $set" usersSnapshot in
  i_filters intent = Some [("name", JStr "$set")]
  /\ isValid (generateQuery intent usersSnapshot) = false
  /\ validationErrors (generateQuery intent usersSnapshot)
     = ["Write operations are not allowed"].
Proof. vm_compute. repeat split; reflexivity. Qed.

(** The other half fails as well: $out as an operator key of a find, and
    $inc as an operator key of what becomes a pipeline, both pass. *)
Lemma operator_key_can_pass :
  isValid (generateQuery (filterIntent TFind [("$out", JStr "dump")]) usersSnapshot) = true
  /\ isValid (generateQuery (filterIntent TAggregate [("$inc", JObj [("n", JNum 1)])])
                            usersSnapshot) = true.
Proof. vm_compute. split; reflexivity. Qed.

End TextualGate.

(* ===================================================================== *)
(** * Properties of relationship detection *)
(* ===================================================================== *)

Section RelationshipProperties.
Import JS SchemaService RelSpec.

Lemma relKey_tripleKey rel : relKey rel = tripleKey (relTriple rel).
Proof. reflexivity. Qed.

(** *** Deduplication *)

Lemma dedupFrom_keys seen l :
  List.NoDup (List.map relKey (dedupFrom seen l))
  /\ forall rel, In rel (dedupFrom seen l) -> (relKey rel ∉ seen) /\ In rel l.
Proof.
  revert seen. induction l as [| r l IH]; intros seen; cbn [dedupFrom].
  - split; [constructor | intros ? []].
  - case_bool_decide as Hk.
    + destruct (IH seen) as [Hnd Hin]. split; [exact Hnd |].
      intros rel H. destruct (Hin rel H). split; [assumption | now right].
    + destruct (IH ({[relKey r]} ∪ seen)) as [Hnd Hin]. split.
      * cbn [List.map]. constructor; [| exact Hnd].
        intros Hmem. apply in_map_iff in Hmem as (rel & Heq & Hrel).
        destruct (Hin rel Hrel) as [Hnot _]. apply Hnot. rewrite Heq.
        apply elem_of_union. left. now apply elem_of_singleton.
      * intros rel [<- | H]; [split; [exact Hk | now left] |].
        destruct (Hin rel H) as [Hnot Hl]. split; [| now right].
        intros Hs. apply Hnot, elem_of_union. now right.
Qed.

Lemma dedupFrom_add k seen l :
  (forall rel, In rel l -> relKey rel <> k) ->
  dedupFrom ({[k]} ∪ seen) l = dedupFrom seen l.
Proof.
  revert seen. induction l as [| r l IH]; intros seen H; cbn [dedupFrom]; [reflexivity |].
  assert (Hr : relKey r <> k) by (apply H; now left).
  assert (Hl : forall rel, In rel l -> relKey rel <> k) by (intros; apply H; now right).
  rewrite (bool_decide_ext (relKey r ∈ {[k]} ∪ seen) (relKey r ∈ seen))
    by (rewrite elem_of_union, elem_of_singleton; tauto).
  case_bool_decide.
  - now apply IH.
  - f_equal.
    assert ({[relKey r]} ∪ ({[k]} ∪ seen) = {[k]} ∪ ({[relKey r]} ∪ seen)) as ->
      by (rewrite !(assoc_L (∪)); f_equal; apply (comm_L (∪))).
    now apply IH.
Qed.

Lemma dedupFrom_app_apart seen l1 l2 :
  (forall r1 r2, In r1 l1 -> In r2 l2 -> relKey r2 <> relKey r1) ->
  dedupFrom seen (l1 ++ l2) = (dedupFrom seen l1 ++ dedupFrom seen l2)%list.
Proof.
  revert seen. induction l1 as [| r l1 IH]; intros seen H; [reflexivity |].
  cbn [app dedupFrom].
  assert (Hrest : forall r1 r2, In r1 l1 -> In r2 l2 -> relKey r2 <> relKey r1)
    by (intros; apply H; [now right | assumption]).
  case_bool_decide.
  - now apply IH.
  - cbn [app]. f_equal. rewrite IH by exact Hrest. f_equal.
    apply dedupFrom_add. intros rel Hin. apply H; [now left | exact Hin].
Qed.

(** *** Keys of edges of different collections *)

Lemma key_prefix_inj (a a' x x' : string) :
  hyphenFree a -> hyphenFree a' ->
  a +:+ "-" +:+ x = a' +:+ "-" +:+ x' -> a = a'.
Proof.
  unfold hyphenFree. revert a'.
  induction a as [| c a IH]; intros [| c' a'] Ha Ha' Heq; [reflexivity | | |].
  - cbn in Heq, Ha'. injection Heq as <- _. discriminate.
  - cbn in Heq, Ha. injection Heq as -> _. discriminate.
  - cbn in Heq, Ha, Ha'. injection Heq as -> Heq.
    apply andb_true_iff in Ha as [_ Ha]. apply andb_true_iff in Ha' as [_ Ha'].
    f_equal. now apply IH.
Qed.

Lemma edgeTo_from collection field target rel :
  In rel (edgeTo collection field target) -> r_from rel = c_name collection.
Proof.
  unfold edgeTo. destruct target as [to|]; [| intros []].
  destruct (String.eqb to EmptyString); [intros [] |].
  intros [<- | []]. reflexivity.
Qed.

Lemma collectionRelationships_from names collection rel :
  In rel (collectionRelationships names collection) -> r_from rel = c_name collection.
Proof.
  unfold collectionRelationships. rewrite in_flat_map.
  intros (field & _ & Hin). unfold fieldRelationships in Hin.
  apply in_app_or in Hin as [Hin | Hin].
  - destruct (Regex.test _ _); [now apply edgeTo_from in Hin | destruct Hin].
  - destruct (_ && _); [now apply edgeTo_from in Hin | destruct Hin].
Qed.

Lemma keys_apart names c c' r r' :
  hyphenFree (c_name c) -> hyphenFree (c_name c') -> c_name c <> c_name c' ->
  In r (collectionRelationships names c) ->
  In r' (collectionRelationships names c') ->
  relKey r' <> relKey r.
Proof.
  intros Hc Hc' Hne Hr Hr' Heq.
  apply collectionRelationships_from in Hr, Hr'.
  unfold relKey in Heq. rewrite Hr, Hr' in Heq.
  apply Hne. symmetry. exact (key_prefix_inj _ _ _ _ Hc' Hc Heq).
Qed.

(** With distinct hyphen-free names deduplication works collection by
    collection. *)
Lemma dedup_by_collection names (cs : list CollectionSchema) :
  List.NoDup (List.map c_name cs) ->
  Forall (fun c => hyphenFree (c_name c)) cs ->
  deduplicateRelationships (flat_map (collectionRelationships names) cs)
  = flat_map (fun c => deduplicateRelationships (collectionRelationships names c)) cs.
Proof.
  unfold deduplicateRelationships.
  induction cs as [| c cs IH]; intros Hnd Hhf; [reflexivity |].
  cbn [flat_map List.map] in *.
  apply List.NoDup_cons_iff in Hnd as [Hnotin Hnd].
  apply List.Forall_cons_iff in Hhf as [Hc Hhf].
  rewrite dedupFrom_app_apart.
  - f_equal. now apply IH.
  - intros r1 r2 H1 H2. apply in_flat_map in H2 as (c' & Hc' & H2).
    apply (keys_apart names c c'); try assumption.
    + rewrite List.Forall_forall in Hhf. now apply Hhf.
    + intros Heq. apply Hnotin. rewrite Heq. now apply in_map.
Qed.

Lemma nameSet_perm cs cs' : Permutation cs cs' -> nameSet cs = nameSet cs'.
Proof.
  intros H. unfold nameSet. apply list_to_set_perm_L.
  now apply Permutation_map.
Qed.

(** Where no two keys can clash, detection does not depend on the order:
    for collections with pairwise distinct names none of which contains a
    hyphen, detection on a permutation of the list gives a permutation of
    the relationships, hence the same set of (from, to, field, type)
    tuples; and on every list of collections the output holds no two
    relationships with the same (from, to, field) triple. *)
Theorem detectRelationships_permutation (cs cs' : list CollectionSchema) :
  List.NoDup (List.map c_name cs) ->
  Forall (fun c => hyphenFree (c_name c)) cs ->
  Permutation cs cs' ->
  Permutation (detectRelationships cs) (detectRelationships cs')
  /\ (forall t, In t (List.map relTuple (detectRelationships cs))
                <-> In t (List.map relTuple (detectRelationships cs')))
  /\ (forall l, List.NoDup (List.map relTriple (detectRelationships l))).
Proof.
  intros Hnd Hhf Hperm.
  assert (Hp : Permutation (detectRelationships cs) (detectRelationships cs')).
  { unfold detectRelationships. rewrite <- (nameSet_perm cs cs' Hperm).
    rewrite !dedup_by_collection.
    - now apply Permutation_flat_map.
    - apply (Permutation_NoDup (l := List.map c_name cs)); [| exact Hnd].
      now apply Permutation_map.
    - now apply (Permutation_Forall Hperm).
    - exact Hnd.
    - exact Hhf. }
  split; [exact Hp |]. split.
  - intros t. split; apply Permutation_in, Permutation_map;
      [exact Hp | now apply Permutation_sym].
  - intros l. unfold detectRelationships, deduplicateRelationships.
    apply List.NoDup_map_inv with (f := tripleKey). rewrite List.map_map.
    apply (dedupFrom_keys ∅).
Qed.

Lemma detectRelationships_permutation_witness :
  Permutation (detectRelationships shop) (detectRelationships (rev shop))
  /\ (forall t, In t (List.map relTuple (detectRelationships shop))
                <-> In t (List.map relTuple (detectRelationships (rev shop)))).
Proof.
  destruct (detectRelationships_permutation shop (rev shop)) as (H1 & H2 & _).
  - cbn. repeat constructor; cbn; intuition discriminate.
  - repeat constructor.
  - apply Permutation_rev.
  - split; [exact H1 | exact H2].
Defined.

(** What detection finds in the shop. *)
Lemma shop_relationships :
  detectRelationships shop
  = [ {| r_from := "orders"; r_to := "users"; r_field := "userId";
         r_type := OneToOne; r_direction := Forward |};
      {| r_from := "orders"; r_to := "products"; r_field := "product_id";
         r_type := OneToOne; r_direction := Forward |} ].
Proof. vm_compute. reflexivity. Qed.

(** C6.  Detection depends on the order of the list.  The collections of
    [clashing] have pairwise distinct names; the edges a -> y-y (field
    y-yId) and a-y-y -> y (field yId) are different (from, to, field)
    triples, yet the text of their deduplication key is the same,
    a-y-y-y-yId, so the one met first survives and the other is dropped:
    the list and its reverse give different sets of tuples. *)
Lemma detection_depends_on_order :
  Permutation clashing (rev clashing)
  /\ List.NoDup (List.map c_name clashing)
  /\ ("a", "y-y", "y-yId") <> ("a-y-y", "y", "yId")
  /\ tripleKey ("a", "y-y", "y-yId") = tripleKey ("a-y-y", "y", "yId")
  /\ List.map relTuple (detectRelationships clashing)
     = [("a", "y-y", "y-yId", OneToOne)]
  /\ List.map relTuple (detectRelationships (rev clashing))
     = [("a-y-y", "y", "yId", OneToOne)].
Proof.
  split; [apply Permutation_rev |]. split.
  - cbn. repeat constructor; cbn; intuition discriminate.
  - split; [intros H; discriminate H |]. repeat split; vm_compute; reflexivity.
Qed.

(** Under one name, two collections whose reference fields differ in
    array-ness give a single edge, typed after the one met first. *)
Lemma same_name_first_wins :
  List.map relTuple (detectRelationships twins)
  = [("orders", "users", "user_id", OneToOne)]
  /\ List.map relTuple (detectRelationships (rev twins))
     = [("orders", "users", "user_id", OneToMany)].
Proof. split; vm_compute; reflexivity. Qed.

End RelationshipProperties.

(* ===================================================================== *)
(** * Further properties of the connection pool *)
(* ===================================================================== *)

Section PoolInvariants.
Import JS ConnectionPool MongoService ExtraSpec.

(** *** The pool key *)

Lemma toInt32_range z : - 2 ^ 31 <= toInt32 z < 2 ^ 31.
Proof.
  unfold toInt32.
  pose proof (Z.mod_pos_bound (z + 2 ^ 31) (2 ^ 32) ltac:(lia)). lia.
Qed.




Lemma hashLoop_range s : forall h,
  - 2 ^ 31 <= h < 2 ^ 31 -> - 2 ^ 31 <= hashLoop h s < 2 ^ 31.
Proof.
  induction s as [| c s IH]; intros h Hh; [exact Hh |].
  cbn [hashLoop]. apply IH. unfold hashStep. apply toInt32_range.
Qed.

(** X1.  The pool key of a connection string is the text [pool_] followed
    by a number between 0 and 2^31. *)
Theorem pool_key_range (connectionString : string) :
  exists n, hashConnectionString connectionString = "pool_" +:+ numberToString n
            /\ 0 <= n <= 2147483648.
Proof.
  exists (Z.abs (hashLoop 0 connectionString)). split; [reflexivity |].
  pose proof (hashLoop_range connectionString 0 ltac:(lia)). lia.
Qed.




(** *** Failure *)

(** X3.  An acquisition that throws, for want of a connection string or
    because the connection attempt fails, leaves the pool as it was: no
    entry is added, changed or removed, and nothing is closed. *)
Theorem failed_acquisition_caches_nothing (cs : string) (now : Z) (connects : bool)
  (m : Manager) (message : string) :
  fst (getConnection cs now connects m) = Thrown message ->
  pools (snd (getConnection cs now connects m)) = pools m
  /\ closed (snd (getConnection cs now connects m)) = closed m
  /\ (cs = EmptyString
      \/ (connects = false /\ pools m !! hashConnectionString cs = None)).
Proof.
  unfold getConnection.
  destruct (String.eqb_spec cs EmptyString) as [-> | Hne]; [auto |].
  destruct (pools m !! hashConnectionString cs); [discriminate |].
  destruct connects; [discriminate |]. cbn. auto.
Qed.

Lemma failed_acquisition_caches_nothing_witness :
  pools (snd (getConnection "mongodb://down.example/db" 1000 false initial)) = pools initial
  /\ closed (snd (getConnection "mongodb://down.example/db" 1000 false initial))
     = closed initial.
Proof.
  destruct (failed_acquisition_caches_nothing "mongodb://down.example/db" 1000 false
              initial "connect failed") as (H1 & H2 & _).
  - reflexivity.
  - split; [exact H1 | exact H2].
Defined.

(** *** The sweep *)

Lemma sweep_nothing_left now m :
  filter (fun kv => evictable now (snd kv) = true) (pools (sweep now m))
  = (∅ : gmap string PoolEntry).
Proof.
  apply map_eq. intros k. rewrite lookup_empty.
  apply map_lookup_filter_None. right. intros pool Hl Hev. cbn in Hev.
  rewrite sweep_lookup in Hl.
  destruct (pools m !! k) as [p|]; [| discriminate].
  destruct (evictable now p) eqn:E; [discriminate |].
  injection Hl as <-. congruence.
Qed.

(** X4.  A sweep only removes entries and only closes clients, and a second
    sweep at the same instant changes nothing. *)
Theorem sweep_idempotent (now : Z) (m : Manager) :
  sweep now (sweep now m) = sweep now m
  /\ pools (sweep now m) ⊆ pools m
  /\ closed m ⊆ closed (sweep now m).
Proof.
  split; [| split].
  - assert (Hp : pools (sweep now (sweep now m)) = pools (sweep now m)).
    { apply map_eq. intros k. rewrite (sweep_lookup now (sweep now m)), sweep_lookup.
      destruct (pools m !! k) as [p|]; [| reflexivity].
      destruct (evictable now p) eqn:E; [reflexivity | now rewrite E]. }
    assert (Hc : closed (sweep now (sweep now m)) = closed (sweep now m)).
    { change (closed (sweep now (sweep now m)))
        with (closed (sweep now m) ∪
              list_to_set
                (List.map (fun kv => e_client (snd kv))
                   (map_to_list
                      (filter (fun kv => evictable now (snd kv) = true)
                              (pools (sweep now m)))))).
      rewrite sweep_nothing_left, map_to_list_empty. cbn.
      apply (right_id_L ∅ (∪)). }
    destruct (sweep now (sweep now m)) as [p c n t] eqn:E2.
    destruct (sweep now m) as [p' c' n' t'] eqn:E1.
    cbn in Hp, Hc. subst p c.
    assert (n = n' /\ t = t') as [-> ->]; [| reflexivity].
    pose proof (f_equal created E2) as Hn. pose proof (f_equal cleanupInterval E2) as Ht.
    cbn in Hn, Ht. split; congruence.
  - apply map_filter_subseteq.
  - cbn [sweep closed]. apply union_subseteq_l.
Qed.

(** *** Soundness of the pool *)

Lemma sound_initial : sound initial.
Proof.
  split; [| split].
  - intros k pool H. change (pools initial) with (∅ : gmap string PoolEntry) in H.
    rewrite lookup_empty in H. discriminate.
  - intros c H. change (closed initial) with (∅ : gset client) in H.
    apply not_elem_of_empty in H. destruct H.
  - intros k k' pool pool' H. change (pools initial) with (∅ : gmap string PoolEntry) in H.
    rewrite lookup_empty in H. discriminate.
Qed.

Lemma sound_getConnection cs now connects m :
  sound m -> sound (snd (getConnection cs now connects m)).
Proof.
  intros Hm. pose proof Hm as (Hopen & Hclosed & Huniq). unfold getConnection.
  destruct (String.eqb cs EmptyString); [exact Hm |].
  destruct (pools m !! hashConnectionString cs) as [pool|] eqn:E; cbn [snd].
  - split; [| split]; cbn [pools closed created].
    + intros k p. destruct (decide (k = hashConnectionString cs)) as [-> | Hk].
      * rewrite lookup_insert_eq. intros [= <-]. cbn. now apply (Hopen _ _ E).
      * rewrite lookup_insert_ne by congruence. apply Hopen.
    + exact Hclosed.
    + intros k k' p p'.
      destruct (decide (k = hashConnectionString cs)) as [-> | Hk];
        destruct (decide (k' = hashConnectionString cs)) as [-> | Hk'];
        rewrite ?lookup_insert_eq, ?lookup_insert_ne by congruence; try reflexivity.
      * intros [= <-] Hp' Hc. cbn in Hc. now apply (Huniq _ _ _ _ E Hp').
      * intros Hp [= <-] Hc. cbn in Hc. now apply (Huniq _ _ _ _ Hp E).
      * apply Huniq.
  - destruct connects; cbn [snd].
    + split; [| split]; cbn [pools closed created].
      * intros k p. destruct (decide (k = hashConnectionString cs)) as [-> | Hk].
        -- rewrite lookup_insert_eq. intros [= <-]. cbn. split; [| lia].
           intros Hin. apply Hclosed in Hin. lia.
        -- rewrite lookup_insert_ne by congruence. intros Hp.
           destruct (Hopen _ _ Hp). split; [assumption | lia].
      * intros c Hc. apply Hclosed in Hc. lia.
      * intros k k' p p'.
        destruct (decide (k = hashConnectionString cs)) as [-> | Hk];
          destruct (decide (k' = hashConnectionString cs)) as [-> | Hk'];
          rewrite ?lookup_insert_eq, ?lookup_insert_ne by congruence; try reflexivity.
        -- intros [= <-] Hp' Hc. cbn in Hc. destruct (Hopen _ _ Hp'). lia.
        -- intros Hp [= <-] Hc. cbn in Hc. destruct (Hopen _ _ Hp). lia.
        -- apply Huniq.
    + split; [| split]; cbn [pools closed created].
      * intros k p Hp. destruct (Hopen _ _ Hp). split; [assumption | lia].
      * intros c Hc. apply Hclosed in Hc. lia.
      * exact Huniq.
Qed.

Lemma sound_release cs now m : sound m -> sound (releaseConnection cs now m).
Proof.
  intros Hm. pose proof Hm as (Hopen & Hclosed & Huniq). unfold releaseConnection.
  destruct (pools m !! hashConnectionString cs) as [pool|] eqn:E; [| exact Hm].
  split; [| split]; cbn [pools closed created].
  - intros k p. destruct (decide (k = hashConnectionString cs)) as [-> | Hk].
    + rewrite lookup_insert_eq. intros [= <-]. cbn. now apply (Hopen _ _ E).
    + rewrite lookup_insert_ne by congruence. apply Hopen.
  - exact Hclosed.
  - intros k k' p p'.
    destruct (decide (k = hashConnectionString cs)) as [-> | Hk];
      destruct (decide (k' = hashConnectionString cs)) as [-> | Hk'];
      rewrite ?lookup_insert_eq, ?lookup_insert_ne by congruence; try reflexivity.
    + intros [= <-] Hp' Hc. cbn in Hc. now apply (Huniq _ _ _ _ E Hp').
    + intros Hp [= <-] Hc. cbn in Hc. now apply (Huniq _ _ _ _ Hp E).
    + apply Huniq.
Qed.

Lemma sound_sweep now m : sound m -> sound (sweep now m).
Proof.
  intros (Hopen & Hclosed & Huniq).
  assert (Hkept : forall k p, pools (sweep now m) !! k = Some p ->
                              pools m !! k = Some p /\ evictable now p = false).
  { intros k p. rewrite sweep_lookup. destruct (pools m !! k) as [x|]; [| discriminate].
    destruct (evictable now x) eqn:Ev; [discriminate |]. intros [= <-]. auto. }
  split; [| split].
  - intros k p Hp. apply Hkept in Hp as [Hp Hev]. destruct (Hopen _ _ Hp) as [Ho Hlt].
    split; [| exact Hlt]. intros Hin.
    apply sweep_closed in Hin as [Hin | (k' & p' & Hp' & Hc & Hev')]; [contradiction |].
    pose proof (Huniq _ _ _ _ Hp' Hp Hc) as ->. congruence.
  - intros c Hin. apply sweep_closed in Hin as [Hin | (k' & p' & Hp' & <- & _)].
    + now apply Hclosed.
    + now apply (Hopen _ _ Hp').
  - intros k k' p p' Hp Hp'. apply Hkept in Hp as [Hp _]. apply Hkept in Hp' as [Hp' _].
    now apply Huniq.
Qed.

Lemma sound_closeAll closes m :
  (forall c, closes c = true) -> sound m -> sound (snd (closeAll closes m)).
Proof.
  intros Hall (Hopen & Hclosed & Huniq).
  destruct (closeAll_resolved closes m) as (_ & Hp & _ & Hn & Hc); [auto |].
  split; [| split].
  - intros k p H. rewrite Hp, lookup_empty in H. discriminate.
  - intros c Hin. rewrite Hn. apply Hc in Hin as [Hin | (k & p & Hl & <-)].
    + now apply Hclosed.
    + now apply (Hopen _ _ Hl).
  - intros k k' p p' H. rewrite Hp, lookup_empty in H. discriminate.
Qed.

Lemma sound_applyOps ops :
  closesResolve ops -> forall m, sound m -> sound (applyOps ops m).
Proof.
  induction ops as [| op ops IH]; intros Hres m Hm; [exact Hm |].
  cbn [applyOps fold_left]. apply IH.
  - intros closes Hin. apply Hres. now right.
  - destruct op as [cs now connects | cs now | now | closes]; cbn [applyOp];
      auto using sound_getConnection, sound_release, sound_sweep.
    apply sound_closeAll; [| exact Hm]. apply Hres. now left.
Qed.

Lemma sound_run evs : forall m, sound m -> sound (run evs m).
Proof.
  induction evs as [| ev evs IH]; intros m Hm; [exact Hm |].
  cbn [run fold_left]. apply IH.
  destruct ev; cbn [step]; auto using sound_getConnection, sound_release, sound_sweep.
Qed.

(** X5.  Whatever acquisitions, releases, sweeps and [closeAll] calls came
    before, provided no [close()] awaited by a [closeAll] rejected,
    [getConnection] never returns a client on which [close] has been
    called, and no two entries of the pool hold the same client. *)
Theorem never_hands_out_a_closed_client (ops : list poolOp) (cs : string) (now : Z)
  (connects : bool) (c : client) :
  closesResolve ops ->
  let m := applyOps ops initial in
  fst (getConnection cs now connects m) = Client c ->
  (c ∉ closed (snd (getConnection cs now connects m)))
  /\ forall k k' pool pool',
       pools m !! k = Some pool -> pools m !! k' = Some pool' ->
       e_client pool = e_client pool' -> k = k'.
Proof.
  intros Hres m Hc.
  pose proof (sound_applyOps ops Hres initial sound_initial) as Hsound. fold m in Hsound.
  split; [| apply Hsound].
  pose proof (sound_getConnection cs now connects m Hsound) as (Hopen & _ & _).
  revert Hc Hopen. unfold getConnection.
  destruct (String.eqb cs EmptyString); [discriminate |].
  destruct (pools m !! hashConnectionString cs) as [pool|] eqn:E; cbn [fst snd].
  - intros [= <-] Hopen.
    apply (Hopen (hashConnectionString cs) _ (lookup_insert_eq _ _ _)).
  - destruct connects; [| discriminate]. cbn [fst snd]. intros [= <-] Hopen.
    apply (Hopen (hashConnectionString cs) _ (lookup_insert_eq _ _ _)).
Qed.

Lemma never_hands_out_a_closed_client_witness :
  let cs := "mongodb://db.example/shop" in
  let ops := [ AcquireOp cs 1000 true; ReleaseOp cs 2000; SweepOp 9000000;
               CloseAllOp (fun _ => true) ] in
  fst (getConnection cs 9000001 true (applyOps ops initial)) = Client 1%nat
  /\ (1%nat ∉ closed (snd (getConnection cs 9000001 true (applyOps ops initial)))).
Proof.
  intros cs ops.
  assert (H : fst (getConnection cs 9000001 true (applyOps ops initial)) = Client 1%nat)
    by (vm_compute; reflexivity).
  split; [exact H |].
  refine (proj1 (never_hands_out_a_closed_client ops cs 9000001 true 1%nat _ H)).
  intros closes [Hin | [Hin | [Hin | [Hin | []]]]]; try discriminate Hin.
  injection Hin as <-. reflexivity.
Defined.

(** *** A [closeAll] that fails *)



(** After such a failure the pool hands out a client that [closeAll] has
    closed: of two pooled clients the first closes and the second rejects,
    and the next acquisition of the first string returns the first client. *)
Lemma closed_client_handed_out :
  let shop := "mongodb://db.example/shop" in
  let logs := "mongodb://db.example/logs" in
  let m := snd (getConnection logs 2000 true (snd (getConnection shop 1000 true initial))) in
  let failed := closeAll (fun c => Nat.eqb c 0) m in
  fst failed = false
  /\ bool_decide (0%nat ∈ closed (snd failed)) = true
  /\ fst (getConnection shop 3000 true (snd failed)) = Client 0%nat.
Proof. vm_compute. repeat split; reflexivity. Qed.

(** *** Releasing more often than acquiring *)

Lemma getConnection_other cs now connects m k :
  k <> hashConnectionString cs ->
  pools (snd (getConnection cs now connects m)) !! k = pools m !! k.
Proof.
  intros Hk. unfold getConnection.
  destruct (String.eqb cs EmptyString); [reflexivity |].
  destruct (pools m !! hashConnectionString cs) as [pool|]; cbn [snd pools].
  - apply lookup_insert_ne. congruence.
  - destruct connects; cbn [snd pools]; [apply lookup_insert_ne; congruence | reflexivity].
Qed.

Lemma release_other cs now m k :
  k <> hashConnectionString cs ->
  pools (releaseConnection cs now m) !! k = pools m !! k.
Proof.
  intros Hk. unfold releaseConnection.
  destruct (pools m !! hashConnectionString cs) as [pool|]; [| reflexivity].
  cbn [pools]. apply lookup_insert_ne. congruence.
Qed.

Lemma acquisitions_cons key ev evs :
  acquisitions key (ev :: evs)
  = ((if acquires key ev then 1 else 0) + acquisitions key evs)%nat.
Proof. unfold acquisitions. cbn [List.filter]. now destruct (acquires key ev). Qed.

(** An entry whose count is further below zero than there are acquisitions
    to come survives whatever sweeps, releases and acquisitions follow. *)
Lemma deficit_entry_persists (key : string) (c : client) (evs : list event) :
  forall m,
    (exists pool, pools m !! key = Some pool
                  /\ refCount pool + Z.of_nat (acquisitions key evs) < 0
                  /\ e_client pool = c) ->
    exists pool, pools (run evs m) !! key = Some pool /\ refCount pool < 0
                 /\ e_client pool = c.
Proof.
  induction evs as [| ev evs IH]; intros m (pool & Hl & Hneg & Hc).
  - exists pool. cbn in Hneg. split; [exact Hl |]. split; [lia | exact Hc].
  - cbn [run fold_left]. apply IH.
    rewrite acquisitions_cons in Hneg.
    destruct ev as [now | cs now | cs now connects]; cbn [step acquires] in *.
    + exists pool. rewrite sweep_lookup, Hl.
      assert (evictable now pool = false) as ->.
      { destruct (evictable now pool) eqn:Ev; [| reflexivity].
        apply evictable_spec in Ev. lia. }
      auto.
    + destruct (decide (hashConnectionString cs = key)) as [<- | Hk].
      * destruct (release_lookup cs now m pool Hl) as (Hl' & _).
        eexists. split; [exact Hl' |]. cbn. split; [lia | exact Hc].
      * exists pool. rewrite release_other by congruence. auto.
    + destruct (String.eqb_spec cs EmptyString) as [-> | Hne].
      * cbn [negb andb] in Hneg. exists pool. auto.
      * cbn [negb andb] in Hneg.
        destruct (String.eqb_spec (hashConnectionString cs) key) as [<- | Hk].
        -- destruct (getConnection_existing cs now connects m pool Hne Hl) as (_ & Hl' & _).
           eexists. split; [exact Hl' |]. cbn [refCount e_client length] in *.
           split; [lia | exact Hc].
        -- exists pool. rewrite getConnection_other by congruence. auto.
Qed.

(** C10 (as amended).  A release of an entry whose reference count is not
    positive takes the count below zero, and a sweep leaves every entry
    whose count is not zero in place.  So, in a pool whose clients are open
    and held by one entry each, the over-released entry stays in the pool,
    its count negative and its client open, through every sequence of
    sweeps, releases and acquisitions in which the acquisitions of its key
    are fewer than the count is short of zero; a [closeAll] that succeeds
    removes it and closes its client. *)
Theorem over_release_never_swept (m : Manager) (cs : string) (pool : PoolEntry)
  (now : Z) (evs : list event) :
  sound m ->
  pools m !! hashConnectionString cs = Some pool ->
  refCount pool <= 0 ->
  Z.of_nat (acquisitions (hashConnectionString cs) evs) < 1 - refCount pool ->
  let released := releaseConnection cs now m in
  let later := run evs released in
  pools released !! hashConnectionString cs
  = Some {| e_client := e_client pool; lastUsed := now; refCount := refCount pool - 1 |}
  /\ (forall m' t key pool',
        pools m' !! key = Some pool' -> refCount pool' <> 0 ->
        pools (sweep t m') !! key = Some pool')
  /\ (exists pool', pools later !! hashConnectionString cs = Some pool'
                    /\ refCount pool' < 0 /\ e_client pool' = e_client pool)
  /\ (e_client pool ∉ closed later)
  /\ (forall closes, (forall c, closes c = true) ->
        fst (closeAll closes later) = true
        /\ pools (snd (closeAll closes later)) !! hashConnectionString cs = None
        /\ e_client pool ∈ closed (snd (closeAll closes later))).
Proof.
  intros Hsound Hl Hle Hacq released later.
  destruct (release_lookup cs now m pool Hl) as (Hl' & Hcl & Hrest).
  assert (Hneg : exists p, pools released !! hashConnectionString cs = Some p
                           /\ refCount p + Z.of_nat (acquisitions (hashConnectionString cs) evs) < 0
                           /\ e_client p = e_client pool).
  { eexists. split; [exact Hl' |]. cbn. split; [lia | reflexivity]. }
  pose proof (deficit_entry_persists _ _ evs released Hneg) as Hlater.
  assert (Hs : sound later) by (apply sound_run, sound_release, Hsound).
  split; [exact Hl' |]. split; [| split; [exact Hlater |]; split].
  - intros m' t key pool' Hp Hnz. rewrite sweep_lookup, Hp.
    destruct (evictable t pool') eqn:Ev; [| reflexivity].
    apply evictable_spec in Ev. lia.
  - destruct Hlater as (p & Hp & _ & <-). now apply (proj1 Hs _ _ Hp).
  - intros closes Hall.
    destruct (closeAll_resolved closes later) as (Hf & Hp & _ & _ & Hc); [auto |].
    split; [exact Hf |]. split; [rewrite Hp; apply lookup_empty |].
    apply Hc. right. destruct Hlater as (p & Hp' & _ & Hcp).
    exists (hashConnectionString cs), p. auto.
Qed.

Lemma over_release_never_swept_witness :
  let cs := "mongodb://db.example/shop" in
  let m := releaseConnection cs 2000 (snd (getConnection cs 1000 true initial)) in
  let released := releaseConnection cs 3000 (releaseConnection cs 2500 m) in
  let later :=
    run [Sweep 9000000; Acquire cs 9200000 true; Release cs 9500000; Sweep 99000000]
        released in
  pools released !! hashConnectionString cs
  = Some {| e_client := 0%nat; lastUsed := 3000; refCount := -2 |}
  /\ (exists pool', pools later !! hashConnectionString cs = Some pool'
                    /\ refCount pool' < 0 /\ e_client pool' = 0%nat)
  /\ (0%nat ∉ closed later).
Proof.
  intros cs m released later.
  destruct (over_release_never_swept (releaseConnection cs 2500 m) cs
              {| e_client := 0%nat; lastUsed := 2500; refCount := -1 |} 3000
              [Sweep 9000000; Acquire cs 9200000 true; Release cs 9500000; Sweep 99000000])
    as (H1 & _ & H2 & H3 & _).
  - apply sound_release, sound_release, sound_getConnection, sound_initial.
  - vm_compute. reflexivity.
  - cbn. lia.
  - vm_compute. reflexivity.
  - split; [exact H1 |]. split; [exact H2 | exact H3].
Defined.

(** C10, counterexample.  An over-released entry does not stay until
    [closeAll]: released twice after one acquisition its count is -1, one
    more acquisition brings it to zero, and the first sweep past the idle
    threshold removes the entry and closes its client, with the timer still
    installed. *)
Lemma over_released_entry_is_swept :
  let cs := "mongodb://db.example/shop" in
  let m := releaseConnection cs 3000
             (releaseConnection cs 2000 (snd (getConnection cs 1000 true initial))) in
  let back := snd (getConnection cs 4000 true m) in
  let swept := run [Sweep (4001 + CONNECTION_POOL_IDLE)] back in
  refCountOf cs m = Some (-1)
  /\ refCountOf cs back = Some 0
  /\ refCountOf cs swept = None
  /\ elements (closed swept) = [0%nat]
  /\ cleanupInterval swept = true.
Proof. vm_compute. repeat split; reflexivity. Qed.

End PoolInvariants.

(* ===================================================================== *)
(** * The pool as the Mongo service uses it *)
(* ===================================================================== *)

Section ServiceProperties.
Import JS ConnectionPool MongoService AIService QueryGenerator Spec.












(** An instance that disconnects twice releases once. *)
Lemma double_disconnect_releases_once :
  let cs := "mongodb://db.example/shop" in
  let sys := play [New cs; Connect 0 1000 true; Disconnect 0 2000; Disconnect 0 3000]
                  (initial, []) in
  countAt (hashConnectionString cs) (fst sys) = 0
  /\ lastUsed <$> pools (fst sys) !! hashConnectionString cs = Some 2000.
Proof. vm_compute. split; reflexivity. Qed.

(** An instance that connects twice and disconnects once leaves a count
    that nothing brings back to zero. *)
Lemma double_connect_leaks :
  let cs := "mongodb://db.example/shop" in
  let sys := play [New cs; Connect 0 1000 true; Connect 0 2000 true; Disconnect 0 3000;
                   Disconnect 0 4000; Tick 99000000] (initial, []) in
  countAt (hashConnectionString cs) (fst sys) = 1.
Proof. vm_compute. reflexivity. Qed.


(** X8.  What [executeQuery] asks of the database for a query that
    [generateQuery] declared valid: never the unknown-type error; for a
    count, the count of the whole collection, whatever the filters of the
    intent; for a find, the filters with the options; for an aggregate, the
    pipeline. *)
Theorem executed_operation intent schemaCache databaseName :
  isValid (generateQuery intent schemaCache) = true ->
  exists collection,
    resolves intent schemaCache collection
    /\ dispatch databaseName (generateQuery intent schemaCache)
       = match i_type intent with
         | TCount => GetCollectionCount databaseName (c_name collection)
         | TAggregate =>
             ExecuteAggregation databaseName (c_name collection)
               (q_pipeline (generateAggregateQuery intent collection))
         | _ =>
             ExecuteReadQuery databaseName (c_name collection)
               (Some (JObj (match i_filters intent with Some f => f | None => [] end)))
               (q_options (generateFindQuery intent collection))
         end.
Proof.
  intros Hvalid.
  destruct (generateQuery_cases intent schemaCache) as [(collection & Hres) | Hinv];
    [| congruence].
  exists collection. split; [exact Hres |].
  rewrite (generateQuery_resolved _ _ _ Hres).
  destruct (i_type intent); reflexivity.
Qed.

Lemma executed_operation_witness :
  let intent := parseIntent "how many users where name is Ada" Samples.usersSnapshot in
  i_filters intent = Some [("name", JStr "Ada")]
  /\ dispatch "shop" (generateQuery intent Samples.usersSnapshot)
     = GetCollectionCount "shop" "users".
Proof.
  intros intent. split; [vm_compute; reflexivity |].
  destruct (executed_operation intent Samples.usersSnapshot "shop") as (collection & Hres & Hd).
  - vm_compute. reflexivity.
  - rewrite Hd. destruct Hres as (name & Hn & _ & Hf).
    vm_compute in Hn. injection Hn as <-. vm_compute in Hf. injection Hf as <-.
    reflexivity.
Defined.

End ServiceProperties.

(* ===================================================================== *)
(** * Further properties of parsing and compilation *)
(* ===================================================================== *)

Section PipelineProperties.
Import JS Regex QueryGenerator AIService Spec.

(** X9.  A limit read off a message is a whole number between 0 and 1000. *)
Theorem extractLimit_bounded (message : string) (n : Z) :
  extractLimit message = Some n -> 0 <= n <= 1000.
Proof.
  unfold extractLimit.
  destruct (search limitPattern message) as [[[b e] [| digits [| ? ?]]] |];
    try discriminate.
  intros [= <-]. pose proof (N2Z.is_nonneg (digitsValue 0 digits)). lia.
Qed.

Lemma extractLimit_bounded_witness :
  extractLimit "first 250000 orders" = Some 1000 /\ 0 <= 1000 <= 1000.
Proof.
  assert (H : extractLimit "first 250000 orders" = Some 1000) by (vm_compute; reflexivity).
  split; [exact H | exact (extractLimit_bounded _ _ H)].
Defined.

Lemma extractLimit_range (message : string) (n : Z) :
  extractLimit message = Some n -> 0 <= n <= 1000.
Proof.
  unfold extractLimit.
  destruct (search limitPattern message) as [[[b e] [| digits [| ? ?]]] |];
    try discriminate.
  intros [= <-]. pose proof (N2Z.is_nonneg (digitsValue 0 digits)). lia.
Qed.

Lemma findCollection_Some name schemaCache collection :
  findCollection name schemaCache = Some collection ->
  In collection (cacheCollections schemaCache) /\ c_name collection = name.
Proof.
  unfold findCollection. intros H. apply List.find_some in H as [Hin Heq].
  apply String.eqb_eq in Heq. auto.
Qed.

(** X10.  Whatever the intent, the result of [generateQuery] has one of the
    three read types; an aggregate carries a pipeline and no query object
    or options, a count or find carries a query object and no pipeline, and
    a count carries no options; and a result declared valid bears the name
    of a collection of the snapshot, the one the intent names. *)
Theorem compiled_query_shape (intent : QueryIntent)
  (schemaCache : option (list CollectionSchema)) :
  let q := generateQuery intent schemaCache in
  In (q_type q) readOnlyTypes
  /\ (q_type q = "aggregate" ->
      q_query q = None /\ q_options q = None /\ exists p, q_pipeline q = Some p)
  /\ (q_type q <> "aggregate" ->
      q_pipeline q = None /\ exists filters, q_query q = Some (JObj filters))
  /\ (q_type q = "count" -> q_options q = None)
  /\ (isValid q = true ->
      i_collection intent = Some (q_collection q)
      /\ exists collection, In collection (cacheCollections schemaCache)
                            /\ c_name collection = q_collection q).
Proof.
  unfold generateQuery.
  destruct (i_collection intent) as [name|].
  2: { cbn. repeat split; try discriminate; eauto 6. }
  destruct (String.eqb name EmptyString).
  { cbn. repeat split; try discriminate; eauto 6. }
  destruct (findCollection name schemaCache) as [collection|] eqn:Ef.
  2: { cbn. repeat split; try discriminate; eauto 6. }
  apply findCollection_Some in Ef as [Hin Hname].
  destruct (i_type intent); cbn; rewrite Hname;
    repeat split; try discriminate; try congruence; eauto 6.
Qed.

(** *** What [parseIntent] hands to [generateQuery] *)

Lemma mentioned_sound lowerMessage (collections : list CollectionSchema) name :
  In name (mentionedCollections lowerMessage collections) ->
  (exists c, In c collections /\ c_name c = name)
  /\ includes lowerMessage (toLowerCase name) = true.
Proof.
  unfold mentionedCollections. rewrite in_flat_map.
  intros (colName & _ & Hin).
  destruct (includes lowerMessage colName) eqn:Einc; [| destruct Hin].
  destruct (List.find _ collections) as [original|] eqn:Ef; [| destruct Hin].
  destruct Hin as [<- | []].
  apply List.find_some in Ef as [Hmem Heq]. apply String.eqb_eq in Heq.
  split; [now exists original | now rewrite Heq].
Qed.

Lemma find_exists {A} (p : A -> bool) (l : list A) x :
  In x l -> p x = true -> exists y, List.find p l = Some y.
Proof.
  intros Hin Hp. destruct (List.find p l) as [y|] eqn:E; [now exists y |].
  pose proof (List.find_none _ _ E x Hin). congruence.
Qed.

Lemma head_In {A} (l : list A) x : List.head l = Some x -> In x l.
Proof. destruct l; [discriminate |]. intros [= ->]. now left. Qed.

(** The collection a parsed intent names, when it names one, is in the
    snapshot and in the message. *)
Lemma parsed_name_resolves message schemaCache name :
  i_collection (parseIntent message schemaCache) = Some name ->
  exists collection,
    findCollection name schemaCache = Some collection
    /\ In collection (cacheCollections schemaCache)
    /\ c_name collection = name
    /\ includes (toLowerCase message) (toLowerCase name) = true.
Proof.
  intros Hhead. cbn [parseIntent i_collection] in Hhead. apply head_In in Hhead.
  apply mentioned_sound in Hhead as ((c & Hin & Hname) & Hinc).
  destruct (find_exists (fun c => String.eqb (c_name c) name) _ c Hin) as (c' & Hf).
  { rewrite Hname. apply String.eqb_refl. }
  pose proof (findCollection_Some name schemaCache c' Hf) as [Hin' Hname'].
  exists c'. auto.
Qed.

(** X11.  A parsed intent never names a collection the snapshot lacks: the
    result of compiling it is either the refusal for want of a collection
    or a query on a collection of the snapshot whose lowercased name occurs
    in the lowercased message. *)
Theorem parsed_collection_resolves (message : string)
  (schemaCache : option (list CollectionSchema)) :
  let intent := parseIntent message schemaCache in
  generateQuery intent schemaCache
  = invalidResult EmptyString "No collection specified in query"
  \/ exists collection,
       resolves intent schemaCache collection
       /\ In collection (cacheCollections schemaCache)
       /\ includes (toLowerCase message) (toLowerCase (c_name collection)) = true.
Proof.
  intros intent.
  destruct (i_collection intent) as [name|] eqn:Ec.
  2: { left. unfold generateQuery. now rewrite Ec. }
  destruct (String.eqb_spec name EmptyString) as [-> | Hne].
  { left. unfold generateQuery. now rewrite Ec. }
  right. destruct (parsed_name_resolves _ _ _ Ec) as (c & Hf & Hin & Hname & Hinc).
  exists c. split; [| split].
  - exists name. auto.
  - exact Hin.
  - now rewrite Hname.
Qed.

Lemma limitOr_bounded limit dflt :
  1 <= dflt <= 1000 -> (forall n, limit = Some n -> 0 <= n <= 1000) ->
  1 <= limitOr limit dflt <= 1000.
Proof.
  intros Hd Hl. unfold limitOr. destruct limit as [n|]; [| exact Hd].
  specialize (Hl n eq_refl). destruct (Z.eqb_spec n 0); lia.
Qed.

(** X12.  Every query compiled from a parsed message is bounded: a find has
    [options.limit] between 1 and 1000, and the pipeline of an aggregate is
    an optional [$match] stage followed by a [$limit] stage between 1 and
    1000 and nothing else; in particular it holds no [$group] stage, since
    [parseIntent] never fills [aggregationStage]. *)
Theorem parsed_queries_are_bounded (message : string)
  (schemaCache : option (list CollectionSchema)) :
  let intent := parseIntent message schemaCache in
  let q := generateQuery intent schemaCache in
  (forall options, q_options q = Some options -> 1 <= o_limit options <= 1000)
  /\ (forall pipeline,
        q_pipeline q = Some pipeline ->
        exists n, 1 <= n <= 1000
                  /\ (pipeline = [JObj [("$limit", JNum n)]]
                      \/ exists filters,
                           i_filters intent = Some filters /\ filters <> []
                           /\ pipeline = [ JObj [("$match", JObj filters)];
                                           JObj [("$limit", JNum n)] ])).
Proof.
  intros intent q.
  assert (Hlim : forall dflt, 1 <= dflt <= 1000 ->
                              1 <= limitOr (i_limit intent) dflt <= 1000).
  { intros dflt Hd. apply limitOr_bounded; [exact Hd |].
    intros n Hn. now apply (extractLimit_range message). }
  unfold q, generateQuery.
  destruct (i_collection intent) as [name|]; [| split; intros ?; discriminate].
  destruct (String.eqb name EmptyString); [split; intros ?; discriminate |].
  destruct (findCollection name schemaCache) as [collection|];
    [| split; intros ?; discriminate].
  destruct (i_type intent) eqn:Ety; cbn [withValidation q_options q_pipeline
    generateCountQuery generateFindQuery generateAggregateQuery];
    split; try (intros ?; discriminate).
  all: try (intros options [= <-]; cbn [o_limit]; apply Hlim; lia).
  intros pipeline [= <-].
  exists (limitOr (i_limit intent) 100). split; [apply Hlim; lia |].
  change (groupStage intent) with (@nil json).
  unfold matchStage. destruct (i_filters intent) as [[| kv r] |]; cbn [app].
  - now left.
  - right. exists (kv :: r). split; [reflexivity |]. split; [discriminate | reflexivity].
  - now left.
Qed.

(** A message that asks to group is compiled without a group stage. *)
Lemma group_by_is_not_compiled :
  q_pipeline (generateQuery (parseIntent "users group by name limit 5" Samples.usersSnapshot)
                            Samples.usersSnapshot)
  = Some [JObj [("$limit", JNum 5)]].
Proof. vm_compute. reflexivity. Qed.





(** *** The orchestrator *)

(** X15.  The confidence threshold of [generateResponse] never decides: for
    a parsed intent, a query is attempted exactly when the type is count,
    find or aggregate and a Mongo URI is given, because every such intent
    scores above 0.6. *)
Theorem confidence_threshold_never_decides (message : string)
  (schemaCache : option (list CollectionSchema)) (mongoUri : option string) :
  attemptsQuery (parseIntent message schemaCache) mongoUri
  = match i_type (parseIntent message schemaCache) with
    | TCount | TFind | TAggregate => uriGiven mongoUri
    | _ => false
    end.
Proof.
  unfold attemptsQuery. cbn [parseIntent i_confidence i_type].
  rewrite calculateConfidence_shape.
  destruct (nonEmpty (mentionedCollections _ _)), (nonEmpty (keys _)), (detectType _),
    (uriGiven mongoUri); vm_compute; reflexivity.
Qed.

(** X16.  A query reaches [executeQuery] only if a Mongo URI was given and
    the query is valid, of the type of the parsed intent (count, find or
    aggregate), on a collection of the snapshot that the message names, and
    free of the tokens the gate looks for: none of the six query tokens in
    its serialized query object, none of the four pipeline tokens in its
    serialized pipeline. *)
Theorem only_safe_queries_run (message : string)
  (schemaCache : option (list CollectionSchema)) (mongoUri : option string)
  (q : GeneratedQuery) :
  queryToExecute message schemaCache mongoUri = Some q ->
  uriGiven mongoUri = true
  /\ isValid q = true
  /\ In (q_type q) readOnlyTypes
  /\ q_type q = typeName (i_type (parseIntent message schemaCache))
  /\ (exists collection,
        In collection (cacheCollections schemaCache)
        /\ c_name collection = q_collection q
        /\ includes (toLowerCase message) (toLowerCase (q_collection q)) = true)
  /\ (forall j t, q_query q = Some j -> In t queryTokens ->
                  includes (stringify j) t = false)
  /\ (forall p t, q_pipeline q = Some p -> In t pipelineTokens ->
                  includes (stringify (JArr p)) t = false).
Proof.
  unfold queryToExecute.
  set (intent := parseIntent message schemaCache).
  destruct (attemptsQuery intent mongoUri) eqn:Eatt; [| discriminate].
  destruct (isValid (generateQuery intent schemaCache)) eqn:Evalid; [| discriminate].
  intros [= <-].
  unfold attemptsQuery in Eatt. repeat (apply andb_true_iff in Eatt as [Eatt ?]).
  destruct (generateQuery_cases intent schemaCache) as [(collection & Hres) | Hinv];
    [| congruence].
  pose proof Evalid as Hgate.
  rewrite (generateQuery_isValid _ _ _ Hres) in Hgate.
  apply validateQuery_valid in Hgate as (Hty & Hnq & Hnp).
  destruct Hres as (name & Hc & Hne & Hf).
  destruct (parsed_name_resolves _ _ _ Hc) as (c & Hf' & Hin & Hname & Hinc).
  pose proof (findCollection_Some _ _ _ Hf) as [_ Hcname].
  assert (Hres : resolves intent schemaCache collection) by (exists name; auto).
  assert (Hcoll : q_collection (generateQuery intent schemaCache) = name).
  { rewrite (generateQuery_resolved intent schemaCache collection Hres), <- Hcname.
    destruct (i_type intent); reflexivity. }
  split; [assumption |]. split; [exact Evalid |]. split; [| split; [| split; [| split]]].
  - unfold typeRejected in Hty.
    destruct (in_dec string_dec (q_type (generateQuery intent schemaCache)) readOnlyTypes)
      as [Hin' | Hnot]; [exact Hin' | contradiction].
  - rewrite (generateQuery_resolved intent schemaCache collection Hres).
    destruct (i_type intent); try reflexivity; discriminate.
  - exists c. rewrite Hcoll. auto.
  - intros j t Hj Ht. destruct (includes (stringify j) t) eqn:E; [| reflexivity].
    exfalso. apply Hnq. exists j. split; [exact Hj |]. split; [| eauto].
    revert Hj. rewrite (generateQuery_resolved intent schemaCache collection Hres).
    destruct (i_type intent); cbn; intros [= <-]; reflexivity.
  - intros p t Hp Ht. destruct (includes (stringify (JArr p)) t) eqn:E; [| reflexivity].
    exfalso. apply Hnp. exists p. eauto.
Qed.

Lemma only_safe_queries_run_witness :
  let q := generateQuery (parseIntent "show users where name is Ada" Samples.usersSnapshot)
                         Samples.usersSnapshot in
  queryToExecute "show users where name is Ada" Samples.usersSnapshot
                 (Some "mongodb://db.example/shop") = Some q
  /\ isValid q = true
  /\ (forall j t, q_query q = Some j -> In t queryTokens ->
                  includes (stringify j) t = false).
Proof.
  intros q.
  assert (H : queryToExecute "show users where name is Ada" Samples.usersSnapshot
                (Some "mongodb://db.example/shop") = Some q) by (vm_compute; reflexivity).
  split; [exact H |].
  destruct (only_safe_queries_run _ _ _ _ H) as (_ & Hv & _ & _ & _ & Hq & _).
  split; [exact Hv | exact Hq].
Defined.

End PipelineProperties.

(* ===================================================================== *)
(** * Further properties of the schema extractor *)
(* ===================================================================== *)

Section SchemaInvariants.
Import JS SchemaService ExtraSpec.

Lemma fold_docs_is_fold_of_visits (samples : list document) :
  forall m,
    fold_left (fun m doc => extractFieldsFromDocument (VObj doc) EmptyString m 0) samples m
    = fold_left observeVisit (sampleVisits samples) m.
Proof.
  unfold sampleVisits.
  induction samples as [| doc r IH]; intros m; [reflexivity |].
  cbn [fold_left flat_map]. rewrite fold_left_app, IH, extract_is_fold_of_visits.
  reflexivity.
Qed.

Lemma analyzeFieldMap_app (samples more : list document) :
  analyzeFieldMap (samples ++ more)
  = fold_left observeVisit (sampleVisits more) (analyzeFieldMap samples).
Proof.
  unfold analyzeFieldMap. rewrite fold_left_app. apply fold_docs_is_fold_of_visits.
Qed.


Lemma getFieldType_not_mixed v : getFieldType v <> "mixed".
Proof.
  destruct v as [ | | b | z | s | l | ms | es]; cbn; try discriminate.
  destruct (entryOf es "_id") as [id|]; [destruct (valueTruthy id) |]; discriminate.
Qed.

Lemma updateFieldSchema_type f v :
  f_type (updateFieldSchema f v) = if agrees (f_type f) v then f_type f else "mixed".
Proof.
  unfold updateFieldSchema, agrees. cbn [f_type].
  rewrite (String.eqb_sym (f_type f)).
  destruct (String.eqb (getFieldType v) (f_type f)),
    (String.eqb (getFieldType v) "null"); reflexivity.
Qed.

Lemma updatedWith_shape (vals : list value) :
  forall f,
    f_name (updatedWith f vals) = f_name f
    /\ f_isArray (updatedWith f vals) = f_isArray f
    /\ f_isNested (updatedWith f vals) = f_isNested f.
Proof.
  induction vals as [| v r IH]; intros f; [now repeat split |].
  unfold updatedWith in *. cbn [fold_left].
  destruct (IH (updateFieldSchema f v)) as (H1 & H2 & H3). now rewrite H1, H2, H3.
Qed.

Lemma mixed_stays (vals : list value) :
  forall f, f_type f = "mixed" -> f_type (updatedWith f vals) = "mixed".
Proof.
  induction vals as [| v r IH]; intros f Hf; [exact Hf |].
  unfold updatedWith in *. cbn [fold_left]. apply IH.
  rewrite updateFieldSchema_type, Hf. now destruct (agrees "mixed" v).
Qed.

Lemma updatedWith_type (vals : list value) :
  forall f,
    f_type (updatedWith f vals)
    = if forallb (agrees (f_type f)) vals then f_type f else "mixed".
Proof.
  induction vals as [| v r IH]; intros f; [reflexivity |].
  change (updatedWith f (v :: r)) with (updatedWith (updateFieldSchema f v) r).
  cbn [forallb]. destruct (agrees (f_type f) v) eqn:Ea; cbn [andb].
  - rewrite IH, updateFieldSchema_type, Ea. reflexivity.
  - apply mixed_stays. now rewrite updateFieldSchema_type, Ea.
Qed.

Lemma updatedWith_tag (vals : list value) f :
  In (f_type f) typeTags -> In (f_type (updatedWith f vals)) typeTags.
Proof.
  intros H. rewrite updatedWith_type.
  destruct (forallb _ vals); [exact H | cbn; tauto].
Qed.




(** X18.  Sampling more documents never restores what was lost: a path that
    has a schema keeps one, with the same name, array-ness and nested-ness;
    [required], once false, stays false, and the type, once [mixed], stays
    [mixed]. *)
Theorem more_samples_never_restore (samples more : list document) (path : string)
  (field : FieldSchema) :
  mapGet (analyzeFieldMap samples) path = Some field ->
  exists field',
    mapGet (analyzeFieldMap (samples ++ more)) path = Some field'
    /\ f_name field' = f_name field
    /\ f_isArray field' = f_isArray field
    /\ f_isNested field' = f_isNested field
    /\ (f_required field = false -> f_required field' = false)
    /\ (f_required field' = true -> f_required field = true)
    /\ (f_type field = "mixed" -> f_type field' = "mixed").
Proof.
  intros H. rewrite analyzeFieldMap_app, mapGet_fold_observe, H.
  eexists. split; [reflexivity |].
  destruct (updatedWith_shape (valuesAt path (sampleVisits more)) field) as (H1 & H2 & H3).
  rewrite H1, H2, H3, updatedWith_required.
  repeat split.
  - intros ->. reflexivity.
  - intros Hr. now apply andb_true_iff in Hr as [Hr _].
  - apply mixed_stays.
Qed.

Lemma more_samples_never_restore_witness :
  let samples := [ [("age", VNum 3)]; [("age", VNull)]; [("age", VStr "three")] ] in
  let more := [ [("age", VNum 4)]; [("age", VNum 5)] ] in
  exists field',
    mapGet (analyzeFieldMap (samples ++ more)) "age" = Some field'
    /\ f_required field' = false /\ f_type field' = "mixed".
Proof.
  intros samples more.
  destruct (more_samples_never_restore samples more "age"
              {| f_name := "age"; f_type := "mixed"; f_required := false;
                 f_isArray := false; f_isNested := false |})
    as (field' & Hg & _ & _ & _ & Hr & _ & Ht).
  - vm_compute. reflexivity.
  - exists field'. split; [exact Hg |]. split; [now apply Hr | now apply Ht].
Defined.

(** *** The list of fields *)






End SchemaInvariants.

(* ===================================================================== *)
(** * Further properties of relationship detection *)
(* ===================================================================== *)

Section RelationshipInvariants.
Import JS Regex SchemaService RelSpec.

Lemma has_nameSet (cs : list CollectionSchema) name :
  has (nameSet cs) name = true -> exists c, In c cs /\ c_name c = name.
Proof.
  unfold has, nameSet. intros H. apply bool_decide_eq_true in H.
  apply elem_of_list_to_set, list_elem_of_In, in_map_iff in H as (c & Hname & Hin).
  now exists c.
Qed.

Lemma extractReferencedCollection_known (cs : list CollectionSchema) fieldName to :
  extractReferencedCollection fieldName (nameSet cs) = Some to ->
  exists c, In c cs /\ c_name c = to.
Proof.
  unfold extractReferencedCollection.
  destruct (has (nameSet cs) (removeFirst suffixPattern fieldName)) eqn:E1.
  { intros [= <-]. now apply has_nameSet. }
  destruct (has (nameSet cs) (removeFirst suffixPattern fieldName +:+ "s")) eqn:E2.
  { intros [= <-]. now apply has_nameSet. }
  destruct (has (nameSet cs) (singularOf (removeFirst suffixPattern fieldName))) eqn:E3.
  { intros [= <-]. now apply has_nameSet. }
  discriminate.
Qed.

Lemma inferFrom_known (cs : list CollectionSchema) patterns fieldName to :
  inferFrom patterns fieldName (nameSet cs) = Some to ->
  exists c, In c cs /\ c_name c = to.
Proof.
  induction patterns as [| pattern rest IH]; cbn [inferFrom]; [discriminate |].
  destruct (search pattern fieldName) as [[[b e] [| baseName [| ? ?]]] |]; try exact IH.
  apply extractReferencedCollection_known.
Qed.

Lemma edgeTo_spec collection field target rel :
  In rel (edgeTo collection field target) ->
  exists to, target = Some to /\ to <> EmptyString
             /\ rel = {| r_from := c_name collection; r_to := to;
                         r_field := f_name field; r_type := relTypeOf field;
                         r_direction := Forward |}.
Proof.
  unfold edgeTo. destruct target as [to|]; [| intros []].
  destruct (String.eqb_spec to EmptyString) as [-> | Hne]; [intros [] |].
  intros [<- | []]. now exists to.
Qed.

Lemma primary_key_is_no_reference : test COLLECTION_REFERENCE "_id" = false.
Proof. vm_compute. reflexivity. Qed.

(** X20.  Every relationship detected runs forward from a collection of the
    input, along one of its fields other than [_id], to a collection of the
    input with a non-empty name; the field's name matches the reference
    pattern or its type is objectId; and the type is one-to-many when the
    field is an array and one-to-one otherwise, never many-to-many. *)
Theorem relationships_are_sound (cs : list CollectionSchema) (rel : Relationship) :
  In rel (detectRelationships cs) ->
  exists collection field target,
    In collection cs /\ In field (c_fields collection) /\ In target cs
    /\ r_from rel = c_name collection
    /\ r_field rel = f_name field
    /\ r_to rel = c_name target
    /\ r_to rel <> EmptyString
    /\ f_name field <> "_id"
    /\ (test COLLECTION_REFERENCE (f_name field) = true \/ f_type field = "objectId")
    /\ r_type rel = (if f_isArray field then OneToMany else OneToOne)
    /\ r_type rel <> ManyToMany
    /\ r_direction rel = Forward.
Proof.
  unfold detectRelationships, deduplicateRelationships. intros Hin.
  apply (dedupFrom_keys ∅) in Hin as [_ Hin].
  apply in_flat_map in Hin as (collection & Hc & Hin).
  unfold collectionRelationships in Hin.
  apply in_flat_map in Hin as (field & Hf & Hin).
  unfold fieldRelationships in Hin.
  assert (Hedge : exists to,
             to <> EmptyString
             /\ (exists target, In target cs /\ c_name target = to)
             /\ f_name field <> "_id"
             /\ (test COLLECTION_REFERENCE (f_name field) = true
                 \/ f_type field = "objectId")
             /\ rel = {| r_from := c_name collection; r_to := to;
                         r_field := f_name field; r_type := relTypeOf field;
                         r_direction := Forward |}).
  { apply in_app_or in Hin as [Hin | Hin].
    - destruct (test COLLECTION_REFERENCE (f_name field)) eqn:Et; [| destruct Hin].
      apply edgeTo_spec in Hin as (to & Ht & Hne & ->).
      exists to. split; [exact Hne |]. split; [| split; [| split; [now left | reflexivity]]].
      + now apply (extractReferencedCollection_known cs (f_name field)).
      + intros Heq. rewrite Heq, primary_key_is_no_reference in Et. discriminate.
    - destruct (String.eqb (f_type field) "objectId") eqn:Ety; [| destruct Hin].
      destruct (String.eqb (f_name field) "_id") eqn:Eid; [destruct Hin |].
      cbn [negb andb] in Hin.
      apply edgeTo_spec in Hin as (to & Ht & Hne & ->).
      apply String.eqb_eq in Ety. apply String.eqb_neq in Eid.
      exists to. split; [exact Hne |]. split; [| split; [| split; [now right | reflexivity]]].
      + now apply (inferFrom_known cs inferPatterns (f_name field)).
      + exact Eid. }
  destruct Hedge as (to & Hne & (target & Htin & Htname) & Hid & Hwhy & ->).
  exists collection, field, target. cbn.
  repeat split; try assumption; try congruence.
  unfold relTypeOf. destruct (f_isArray field); discriminate.
Qed.

Lemma relationships_are_sound_witness :
  exists collection field target,
    In collection shop /\ In field (c_fields collection) /\ In target shop
    /\ c_name collection = "orders" /\ f_name field = "userId"
    /\ c_name target = "users".
Proof.
  destruct (relationships_are_sound shop
              {| r_from := "orders"; r_to := "users"; r_field := "userId";
                 r_type := OneToOne; r_direction := Forward |})
    as (collection & field & target & H1 & H2 & H3 & H4 & H5 & H6 & _).
  - vm_compute. now left.
  - exists collection, field, target. cbn in H4, H5, H6. auto 10.
Defined.

(** *** Deduplication *)

Lemma dedupFrom_again seen l : dedupFrom seen (dedupFrom seen l) = dedupFrom seen l.
Proof.
  revert seen. induction l as [| r l IH]; intros seen; [reflexivity |].
  cbn [dedupFrom]. case_bool_decide as Hk; [apply IH |].
  cbn [dedupFrom]. rewrite bool_decide_eq_false_2 by exact Hk.
  f_equal. apply IH.
Qed.

Lemma dedupFrom_complete seen l rel :
  In rel l ->
  relKey rel ∈ seen
  \/ exists kept, In kept (dedupFrom seen l) /\ relKey kept = relKey rel.
Proof.
  revert seen. induction l as [| r l IH]; intros seen Hin; [destruct Hin |].
  cbn [dedupFrom]. destruct Hin as [-> | Hin].
  - case_bool_decide as Hk; [now left |]. right. exists rel. split; [now left | reflexivity].
  - case_bool_decide as Hk; [now apply IH |].
    destruct (IH ({[relKey r]} ∪ seen) Hin) as [Hs | (kept & Hkept & Heq)].
    + apply elem_of_union in Hs as [Hs | Hs]; [| now left].
      apply elem_of_singleton in Hs. right. exists r. split; [now left | now symmetry].
    + right. exists kept. split; [now right | exact Heq].
Qed.

(** X21.  Deduplication keeps, for every key of its input, one relationship
    with that key, taken from the input; its output has no two
    relationships with the same key, and deduplicating again changes
    nothing. *)
Theorem deduplication_is_a_projection (relationships : list Relationship) :
  deduplicateRelationships (deduplicateRelationships relationships)
  = deduplicateRelationships relationships
  /\ List.NoDup (List.map relKey (deduplicateRelationships relationships))
  /\ (forall rel, In rel (deduplicateRelationships relationships) -> In rel relationships)
  /\ (forall rel, In rel relationships ->
                  exists kept, In kept (deduplicateRelationships relationships)
                               /\ relKey kept = relKey rel).
Proof.
  unfold deduplicateRelationships. split; [apply dedupFrom_again |].
  split; [apply (dedupFrom_keys ∅) |]. split.
  - intros rel H. now apply (dedupFrom_keys ∅) in H as [_ H].
  - intros rel H. destruct (dedupFrom_complete ∅ _ _ H) as [Hs | Hk]; [| exact Hk].
    apply not_elem_of_empty in Hs. destruct Hs.
Qed.

End RelationshipInvariants.

(* ===================================================================== *)
(** * The response metadata and the project model *)
(* ===================================================================== *)

Section MetadataProperties.
Import JS QueryGenerator AIService ProjectModel.

(** X22.  The query type reported with a response is the type of the parsed
    intent, provided the message contains one of find, show, get or none of
    the four phrases (see the data, view data, peek, look at) that only the
    parser counts as a find. *)
Theorem reported_type_agrees (message : string) :
  includes (toLowerCase message) "find" || includes (toLowerCase message) "show"
    || includes (toLowerCase message) "get" = true
  \/ includes (toLowerCase message) "see the data"
       || includes (toLowerCase message) "view data"
       || includes (toLowerCase message) "peek"
       || includes (toLowerCase message) "look at" = false ->
  detectQueryType message = typeName (detectType (toLowerCase message)).
Proof.
  unfold detectQueryType, detectType.
  generalize (toLowerCase message) as lower. intros lower.
  destruct (includes lower "count"), (includes lower "how many"); cbn [orb];
    try (intros _; reflexivity).
  destruct (includes lower "aggregate"), (includes lower "group by"); cbn [orb];
    try (intros _; reflexivity).
  destruct (includes lower "find"), (includes lower "show"), (includes lower "get");
    cbn [orb]; try (intros _; reflexivity).
  intros [H | H]; [discriminate |]. rewrite H.
  destruct (includes lower "structure"), (includes lower "schema"); cbn [orb];
    try reflexivity.
  destruct (includes lower "relationship"), (includes lower "reference"); reflexivity.
Qed.

Lemma reported_type_agrees_witness :
  detectQueryType "Show me the orders"
  = typeName (detectType (toLowerCase "Show me the orders")).
Proof.
  apply (reported_type_agrees "Show me the orders"). left. vm_compute. reflexivity.
Defined.

(** Without the proviso the two differ. *)
Lemma reported_type_can_differ :
  detectType (toLowerCase "peek at the users schema") = TFind
  /\ detectQueryType "peek at the users schema" = "schema".
Proof. vm_compute. split; reflexivity. Qed.

Lemma mentioned_as_filter lowerMessage (cs l : list CollectionSchema) :
  (forall c, In c l -> In c cs) ->
  List.map toLowerCase
    (flat_map
       (fun colName =>
          if includes lowerMessage colName then
            match List.find (fun c => String.eqb (toLowerCase (c_name c)) colName) cs with
            | Some originalCollection => [c_name originalCollection]
            | None => []
            end
          else [])
       (List.map (fun c => toLowerCase (c_name c)) l))
  = List.map toLowerCase
      (List.map c_name
         (List.filter (fun col => includes lowerMessage (toLowerCase (c_name col))) l)).
Proof.
  induction l as [| c l IH]; intros Hsub; [reflexivity |].
  cbn [List.map flat_map List.filter]. rewrite List.map_app, IH
    by (intros x Hx; apply Hsub; now right).
  destruct (includes lowerMessage (toLowerCase (c_name c))); [| reflexivity].
  destruct (List.find _ cs) as [o|] eqn:Ef.
  - apply List.find_some in Ef as [_ Heq]. apply String.eqb_eq in Heq.
    cbn. now rewrite Heq.
  - exfalso. pose proof (List.find_none _ _ Ef c (Hsub c ltac:(now left))) as Hc.
    cbn in Hc. rewrite String.eqb_refl in Hc. discriminate.
Qed.

Lemma NoDup_map_inj {A B} (f : A -> B) (l : list A) x y :
  List.NoDup (List.map f l) -> In x l -> In y l -> f x = f y -> x = y.
Proof.
  induction l as [| a l IH]; [intros _ [] |].
  cbn [List.map]. intros Hnd Hx Hy Hxy. apply List.NoDup_cons_iff in Hnd as [Hnot Hnd].
  destruct Hx as [-> | Hx], Hy as [-> | Hy]; auto.
  - exfalso. apply Hnot. rewrite Hxy. now apply in_map.
  - exfalso. apply Hnot. rewrite <- Hxy. now apply in_map.
Qed.

Lemma mentioned_exactly lowerMessage (cs l : list CollectionSchema) :
  List.NoDup (List.map (fun c => toLowerCase (c_name c)) cs) ->
  (forall c, In c l -> In c cs) ->
  flat_map
    (fun colName =>
       if includes lowerMessage colName then
         match List.find (fun c => String.eqb (toLowerCase (c_name c)) colName) cs with
         | Some originalCollection => [c_name originalCollection]
         | None => []
         end
       else [])
    (List.map (fun c => toLowerCase (c_name c)) l)
  = List.map c_name
      (List.filter (fun col => includes lowerMessage (toLowerCase (c_name col))) l).
Proof.
  intros Hnd. induction l as [| c l IH]; intros Hsub; [reflexivity |].
  cbn [List.map flat_map List.filter]. rewrite IH by (intros x Hx; apply Hsub; now right).
  destruct (includes lowerMessage (toLowerCase (c_name c))); [| reflexivity].
  destruct (List.find _ cs) as [o|] eqn:Ef.
  - apply List.find_some in Ef as [Ho Heq]. apply String.eqb_eq in Heq.
    rewrite (NoDup_map_inj (fun c => toLowerCase (c_name c)) cs o c Hnd Ho
               (Hsub c ltac:(now left)) Heq).
    reflexivity.
  - exfalso. pose proof (List.find_none _ _ Ef c (Hsub c ltac:(now left))) as Hc.
    cbn in Hc. rewrite String.eqb_refl in Hc. discriminate.
Qed.

(** X23.  The collections reported with a response and the collections of
    the parsed intent are the same up to letter case, one per collection of
    the snapshot whose lowercased name occurs in the lowercased message, in
    the order of the snapshot; they are the same outright when no two
    collections of the snapshot have the same lowercased name. *)
Theorem reported_collections_agree (message : string)
  (schemaCache : option (list CollectionSchema)) :
  let mentioned :=
    mentionedCollections (toLowerCase message) (cacheCollections schemaCache) in
  List.map toLowerCase (extractCollections message schemaCache)
  = List.map toLowerCase mentioned
  /\ (List.NoDup (List.map (fun c => toLowerCase (c_name c)) (cacheCollections schemaCache)) ->
      extractCollections message schemaCache = mentioned).
Proof.
  unfold extractCollections, mentionedCollections. split.
  - symmetry. now apply mentioned_as_filter.
  - intros Hnd. symmetry. now apply mentioned_exactly.
Qed.

(** With [Users] and [users] in the snapshot the two lists differ. *)
Lemma reported_collections_can_differ :
  let cache := Some [ mkCollection "Users" [] 1; mkCollection "users" [] 1 ] in
  extractCollections "list users" cache = ["Users"; "users"]
  /\ i_collections (parseIntent "list users" cache) = Some ["Users"; "Users"].
Proof. vm_compute. split; reflexivity. Qed.

(** X24.  A project without a sync date is disconnected and needs a refresh;
    one that is shown as connected (synced within the last 5 minutes) never
    needs a refresh; and a refresh is needed exactly when the last sync is
    more than 30 minutes old. *)
Theorem connected_projects_are_fresh (now : Z) (lastSynced : option Z) :
  (connectionStatus now lastSynced = "connected" ->
   needsSchemaRefresh now lastSynced = false)
  /\ (connectionStatus now lastSynced = "disconnected" <-> lastSynced = None)
  /\ (needsSchemaRefresh now lastSynced = true <->
      forall t, lastSynced = Some t -> t + 1800000 < now).
Proof.
  unfold connectionStatus, needsSchemaRefresh.
  destruct lastSynced as [t|].
  - split; [| split].
    + destruct (Z.ltb_spec (now - 5 * 60 * 1000) t); [| discriminate].
      intros _. apply Z.ltb_ge. lia.
    + destruct (now - 5 * 60 * 1000 <? t); split; discriminate.
    + rewrite Z.ltb_lt. split.
      * intros H t' [= <-]. lia.
      * intros H. specialize (H t eq_refl). lia.
  - split; [discriminate |]. split; [tauto |]. split; [discriminate | reflexivity].
Qed.

End MetadataProperties.
